(** * votelib: apportionment primitives, thresholds and combinators

    The repository ships the usage notebook [docs/examples/de_bdt_2017.ipynb]
    (German 2017 Bundestag and Slovak 2020 National Council); the engine it
    drives ([votelib.evaluate.*], [votelib.convert], [votelib.candidate]) is
    modelled here from its specification.  Vote and seat counts are exact
    non-negative integers ([N]); flat mappings are association lists in
    insertion order, as Python dicts are; nested mappings are keyed by
    region name. *)

From Stdlib Require Import List Arith NArith ZArith Lia String Ascii Bool Permutation.
Import ListNotations.
#[local] Set Warnings "-register-all".

(** ** Candidates ([votelib.candidate]) *)

(** Modelled from the spec: the candidate identity model
    ([votelib.candidate.PoliticalParty] and [votelib.candidate.Coalition]):
    an atomic party, or a coalition with a display name and its ordered
    member parties. *)
Inductive candidate : Type :=
| PoliticalParty (name : string)
| Coalition (name : string) (parties : list candidate).

(** Modelled from the spec: [member_count()]; an atomic party counts as one. *)
Definition member_count (c : candidate) : nat :=
  match c with
  | PoliticalParty _ => 1
  | Coalition _ ps => List.length ps
  end.

Fixpoint candidate_eqb (a b : candidate) {struct a} : bool :=
  match a, b with
  | PoliticalParty n, PoliticalParty m => String.eqb n m
  | Coalition n xs, Coalition m ys =>
      String.eqb n m &&
      (fix members_eqb (xs ys : list candidate) : bool :=
         match xs, ys with
         | [], [] => true
         | x :: xs', y :: ys' => candidate_eqb x y && members_eqb xs' ys'
         | _, _ => false
         end) xs ys
  | _, _ => false
  end.

(** Induction over candidates that sees the members of a coalition. *)
Fixpoint candidate_ind_members (P : candidate -> Prop)
  (HP : forall n, P (PoliticalParty n))
  (HC : forall n ps, Forall P ps -> P (Coalition n ps))
  (c : candidate) {struct c} : P c :=
  match c with
  | PoliticalParty n => HP n
  | Coalition n ps =>
      HC n ps
        ((fix go (ps : list candidate) : Forall P ps :=
            match ps with
            | [] => Forall_nil P
            | p :: ps' => Forall_cons p (candidate_ind_members P HP HC p) (go ps')
            end) ps)
  end.

Lemma candidate_eqb_eq : forall a b, candidate_eqb a b = true <-> a = b.
Proof.
  induction a as [n | n xs IH] using candidate_ind_members; intros [m | m ys]; simpl;
    try (split; intros H; discriminate H).
  - rewrite String.eqb_eq. split; intros H; [subst | injection H]; auto.
  - rewrite andb_true_iff, String.eqb_eq.
    assert (Hm : (fix members_eqb (xs ys : list candidate) : bool :=
         match xs, ys with
         | [], [] => true
         | x :: xs', y :: ys' => candidate_eqb x y && members_eqb xs' ys'
         | _, _ => false
         end) xs ys = true <-> xs = ys).
    { revert ys. induction IH as [| x xs Hx _ IHxs]; intros [| y ys]; simpl;
        try (split; intros H; discriminate H); [tauto |].
      rewrite andb_true_iff, Hx, IHxs. split; [intros [-> ->]; auto | intros H; injection H; auto]. }
    rewrite Hm. split; [intros [-> ->]; auto | intros H; injection H; auto].
Qed.

(** ** Keys of mappings

    Python dict keys are compared with [==]; a key type comes with a boolean
    equality that reflects equality. *)
Class EqbKey (K : Type) := {
  key_eqb : K -> K -> bool;
  key_eqb_eq : forall a b, key_eqb a b = true <-> a = b
}.

#[global] Instance string_key : EqbKey string := {| key_eqb := String.eqb; key_eqb_eq := String.eqb_eq |}.
#[global] Instance candidate_key : EqbKey candidate := {| key_eqb := candidate_eqb; key_eqb_eq := candidate_eqb_eq |}.

(** A flat mapping (VoteMapping or SeatMapping) and a nested one (region to
    flat mapping). *)
Definition mapping (K : Type) := list (K * N).
Definition nested (K : Type) := list (string * mapping K).

Section Mappings.
Context {K : Type} `{EqbKey K}.

Fixpoint lookup (k : K) (m : mapping K) : option N :=
  match m with
  | [] => None
  | (k', v) :: m' => if key_eqb k k' then Some v else lookup k m'
  end.

(** [m.get(k, 0)] *)
Definition get (k : K) (m : mapping K) : N :=
  match lookup k m with Some v => v | None => 0%N end.

Fixpoint N_sum (l : list N) : N :=
  match l with [] => 0%N | x :: l' => (x + N_sum l')%N end.

(** [sum(m.values())] *)
Definition total (m : mapping K) : N := N_sum (map snd m).

(** [m[k] += v] on a [defaultdict(int)]: a new key is appended at the end. *)
Fixpoint add_to (k : K) (v : N) (m : mapping K) : mapping K :=
  match m with
  | [] => [(k, v)]
  | (k', v') :: m' => if key_eqb k k' then (k', (v' + v)%N) :: m' else (k', v') :: add_to k v m'
  end.

Definition mem (k : K) (l : list K) : bool := existsb (key_eqb k) l.

End Mappings.

(** Nested lookup with an empty default: [nested.get(region, {})]. *)
Definition region_get {K : Type} (r : string) (m : nested K) : mapping K :=
  match find (fun '(r', _) => String.eqb r r') m with Some (_, v) => v | None => [] end.

(** ** Errors (spec section 7) and the result monad *)
(** [AllocationInconsistency]: an apportionment primitive whose computed
    total differs from the requested one; [ConfigurationError]: a
    non-monotonic method configured under overhang leveling (spec 4.7). *)
Inductive error : Type :=
| InvalidInput
| AllocationInconsistency
| NonConvergence
| ConfigurationError.

Inductive result (A : Type) : Type :=
| Ok (a : A)
| Err (e : error).
Arguments Ok {A} a.
Arguments Err {A} e.

Definition bind {A B : Type} (r : result A) (f : A -> result B) : result B :=
  match r with Ok a => f a | Err e => Err e end.

Notation "x <- r ;; f" := (bind r (fun x => f)) (at level 61, r at next level, right associativity).

Fixpoint mapM {A B : Type} (f : A -> result B) (l : list A) : result (list B) :=
  match l with
  | [] => Ok []
  | a :: l' => b <- f a ;; bs <- mapM f l' ;; Ok (b :: bs)
  end.

(** ** Divisor (highest-averages) apportionment (spec 4.2) *)

(** Modelled from the spec: the divisor sequences selectable by name, each
    scaled by a positive constant (which leaves every quotient comparison
    unchanged): d'Hondt 1, 2, 3, ...; Sainte-Laguë 1, 3, 5, ...; the
    modified (Schepers) variant 1.4, 3, 5, ..., times 5. *)
Inductive divisor_method : Type :=
| dhondt
| sainte_lague
| modified_sainte_lague.

Definition divisor (m : divisor_method) (k : N) : N :=
  match m with
  | dhondt => k + 1
  | sainte_lague => 2 * k + 1
  | modified_sainte_lague => if (k =? 0)%N then 7 else 10 * k + 5
  end%N.

(** [v1 / d1 > v2 / d2] on exact rationals. *)
Definition quotient_gt (v1 d1 v2 d2 : N) : bool := (v2 * d1 <? v1 * d2)%N.

Section Divisor.
Context {K : Type} `{EqbKey K}.

(** Modelled from the spec: the entry with the globally largest quotient
    [votes / divisor(seats so far)]; on an exact tie the entry earlier in
    the input order wins (the explicit tie-break rule). *)
Fixpoint argmax_quotient (m : divisor_method) (seats : mapping K) (votes : mapping K)
  : option (K * N * N) :=
  match votes with
  | [] => None
  | (c, v) :: rest =>
      let d := divisor m (get c seats) in
      match argmax_quotient m seats rest with
      | None => Some (c, v, d)
      | Some (c', v', d') => if quotient_gt v' d' v d then Some (c', v', d') else Some (c, v, d)
      end
  end.

(** Modelled from the spec: award one seat at a time to the largest
    quotient until the budget is spent; the seat mapping grows like a
    [defaultdict(int)], so candidates appear in the order of their first
    seat. *)
Fixpoint ha_loop (m : divisor_method) (votes : mapping K) (budget : nat) (seats : mapping K)
  : mapping K :=
  match budget with
  | O => seats
  | S budget' =>
      match argmax_quotient m seats votes with
      | None => seats
      | Some (c, _, _) => ha_loop m votes budget' (add_to c 1 seats)
      end
  end.

(** Modelled from the spec: the explicit policy for a vote mapping whose
    candidates all have zero votes, with seats requested: the seats are
    split evenly, seat [i] going to the candidate at position [i mod n] in
    input order ([d] is never used: the mapping is not empty). *)
Definition split_evenly (votes : mapping K) (d : K) (T : N) : mapping K :=
  fold_left (fun seats i => add_to (nth (i mod List.length votes) (map fst votes) d) 1 seats)
            (seq 0 (N.to_nat T)) [].

(** Modelled from the spec: [HighestAverages(method).evaluate(votes, T)];
    an empty candidate set with seats requested is invalid input, and all
    zero votes are split evenly. *)
Definition highest_averages (m : divisor_method) (votes : mapping K) (T : N)
  : result (mapping K) :=
  match votes with
  | [] => if (T =? 0)%N then Ok [] else Err InvalidInput
  | (c, _) :: _ =>
      if (total votes =? 0)%N then Ok (split_evenly votes c T)
      else Ok (ha_loop m votes (N.to_nat T) [])
  end.

End Divisor.

(** ** Largest-remainder apportionment (spec 4.3) *)

(** Modelled from the spec: the quota functions, as an exact fraction
    (numerator, denominator) of the total votes [V] and seats [T]: Hare
    [V / T], Hagenbach-Bischoff [V / (T + 1)], and Hagenbach-Bischoff with
    the quota rounded half up to an integer. *)
Inductive quota_function : Type :=
| hare
| hagenbach_bischoff
| hagenbach_bischoff_rounded.

Definition quota (q : quota_function) (V T : N) : N * N :=
  match q with
  | hare => (V, T)
  | hagenbach_bischoff => (V, T + 1)
  | hagenbach_bischoff_rounded => ((2 * V + (T + 1)) / (2 * (T + 1)), 1)
  end%N.

(** Stable insertion sort by a key, descending: among equal keys the input
    order is kept (the explicit tie-break rule). *)
Section SortDesc.
Context {A : Type} (key : A -> N).

Fixpoint insert_desc (x : A) (l : list A) : list A :=
  match l with
  | [] => [x]
  | y :: l' => if (key x <? key y)%N then y :: insert_desc x l' else x :: l
  end.

Fixpoint sort_desc (l : list A) : list A :=
  match l with
  | [] => []
  | x :: l' => insert_desc x (sort_desc l')
  end.

End SortDesc.

Section Remainder.
Context {K : Type} `{EqbKey K}.

(** Modelled from the spec: [LargestRemainder(quota).evaluate(votes, T)].
    Each candidate gets [floor(votes / quota)] seats; the remaining
    [R = T - sum of floors] seats (none if the floors already reach [T])
    go one each to the first [R] candidates by descending remainder
    [votes / quota - floor], ties in input order.  A zero or undefined
    quota is a division by zero.  The closed invariant is checked: when
    the computed total is not [T] (the floors exceed [T], or [R] exceeds
    the number of candidates), the allocation inconsistency is reported
    instead of a result. *)
Definition largest_remainder (q : quota_function) (votes : mapping K) (T : N)
  : result (mapping K) :=
  let '(qn, qd) := quota q (total votes) T in
  if ((qn =? 0) || (qd =? 0))%N then Err InvalidInput else
  let indexed := combine (seq 0 (List.length votes)) votes in
  let floor_of (v : N) := (v * qd / qn)%N in
  let rem_of (v : N) := (v * qd mod qn)%N in
  let R := (T - N_sum (map (fun '(_, v) => floor_of v) votes))%N in
  let ranked := sort_desc (fun '(_, (_, v)) => rem_of v) indexed in
  let top := firstn (N.to_nat R) (map fst ranked) in
  let seats := map (fun '(i, (c, v)) =>
                      (c, (floor_of v + if existsb (Nat.eqb i) top then 1 else 0)%N)) indexed in
  if (total seats =? T)%N then Ok seats else Err AllocationInconsistency.

End Remainder.

(** Modelled from the spec: the apportionment primitives, usable on any key
    type (parties, or regions when seats are apportioned to regions). *)
Inductive apportionment : Type :=
| HighestAverages (m : divisor_method)
| LargestRemainder (q : quota_function).

Definition apportion {K : Type} `{EqbKey K} (a : apportionment) (votes : mapping K) (T : N)
  : result (mapping K) :=
  match a with
  | HighestAverages m => highest_averages m votes T
  | LargestRemainder q => largest_remainder q votes T
  end.

(** ** Threshold evaluators (spec 4.4) *)

(** Modelled from the spec: the threshold evaluators
    ([votelib.evaluate.threshold]).  [RelativeThreshold num den accept_equal]
    is the fraction [num / den]; [CoalitionMemberBracketer] maps member
    counts to thresholds (a dict: the first matching entry) with a default. *)
Inductive threshold : Type :=
| RelativeThreshold (num den : N) (accept_equal : bool)
| AbsoluteThreshold (count : N)
| PreviousGainThreshold (inner : threshold)
| AlternativeThresholds (alternatives : list threshold)
| CoalitionMemberBracketer (brackets : list (nat * threshold)) (default : threshold).

(** Modelled from the spec: whether threshold [th] admits candidate [c],
    given the current vote mapping and the result carried over from an
    earlier stage ([prev]).  A relative threshold compares [votes / total]
    with the fraction, [>=] when [accept_equal], else [>]; an absolute one
    compares the tested quantity with the count; [PreviousGainThreshold]
    tests the carried-over result instead of the votes; alternatives are a
    logical or; the bracketer applies the threshold of the candidate's
    member count, or the default. *)
Fixpoint admits (th : threshold) (votes prev : mapping candidate) (c : candidate) {struct th}
  : bool :=
  match th with
  | RelativeThreshold num den accept_equal =>
      if accept_equal then (num * total votes <=? den * get c votes)%N
      else (num * total votes <? den * get c votes)%N
  | AbsoluteThreshold count => (count <=? get c votes)%N
  | PreviousGainThreshold inner => admits inner prev prev c
  | AlternativeThresholds ts =>
      (fix any_admits (ts : list threshold) : bool :=
         match ts with
         | [] => false
         | t :: ts' => admits t votes prev c || any_admits ts'
         end) ts
  | CoalitionMemberBracketer brackets default =>
      (fix pick (brs : list (nat * threshold)) : bool :=
         match brs with
         | [] => admits default votes prev c
         | (n, t) :: brs' => if Nat.eqb n (member_count c) then admits t votes prev c else pick brs'
         end) brackets
  end.

(** The bracket a member count is dispatched to, if any. *)
Fixpoint find_bracket (brackets : list (nat * threshold)) (n : nat) : option threshold :=
  match brackets with
  | [] => None
  | (n', t) :: brs' => if Nat.eqb n' n then Some t else find_bracket brs' n
  end.

(** Modelled from the spec: the threshold's result, the admitted candidates
    in input order. *)
Definition select (th : threshold) (votes prev : mapping candidate) : list candidate :=
  map fst (filter (fun '(c, _) => admits th votes prev c) votes).

(** ** Evaluators over flat vote mappings (spec 4.6) *)

(** Modelled from the spec: the evaluator tree over a flat vote mapping.
    [Conditioned th e] runs the threshold, keeps the votes of the admitted
    candidates ([{c: v for c, v in votes.items() if c in admitted}]) and
    delegates to [e]; [FixedSeatCount e n] ignores the requested total and
    evaluates [e] at [n]. *)
Inductive evaluator : Type :=
| Apportion (a : apportionment)
| Conditioned (th : threshold) (e : evaluator)
| FixedSeatCount (e : evaluator) (n : N).

Fixpoint evaluate (e : evaluator) (votes prev : mapping candidate) (T : N)
  : result (mapping candidate) :=
  match e with
  | Apportion a => apportion a votes T
  | Conditioned th e' =>
      let admitted := select th votes prev in
      evaluate e' (filter (fun '(c, _) => mem c admitted) votes) prev T
  | FixedSeatCount e' n => evaluate e' votes prev n
  end.

(** ** The Slovak 2020 evaluator (notebook, second part) *)

Definition standard_elim : threshold := RelativeThreshold 5 100 true.
Definition mem_2_3_elim : threshold := RelativeThreshold 7 100 true.
Definition mem_4plus_elim : threshold := RelativeThreshold 1 10 true.

Definition sk_preselector : threshold :=
  CoalitionMemberBracketer [(1, standard_elim); (2, mem_2_3_elim); (3, mem_2_3_elim)] mem_4plus_elim.

Definition sk_evaluator : evaluator :=
  FixedSeatCount (Conditioned sk_preselector (Apportion (LargestRemainder hagenbach_bischoff_rounded))) 150.

Local Open Scope string_scope.

Definition ps_spolu : candidate :=
  Coalition "Progresívne Slovensko-SPOLU" [PoliticalParty "Progresívne Slovensko"; PoliticalParty "SPOLU"].

(** The vote mapping of the notebook, in its order. *)
Definition sk_votes : mapping candidate := [
  (PoliticalParty "OĽANO", 721166); (PoliticalParty "Smer", 527172);
  (PoliticalParty "Sme rodina", 237531); (PoliticalParty "ĽSNS", 229660);
  (ps_spolu, 200780); (PoliticalParty "Sloboda a Solidarita", 179246);
  (PoliticalParty "Za ľudí", 166325); (PoliticalParty "Kresťanskodemokratické hnutie", 134099);
  (PoliticalParty "MKÖ-MKS", 112662); (PoliticalParty "SNS", 91171);
  (PoliticalParty "Dobrá voľba", 88220); (PoliticalParty "Vlasť", 84507);
  (PoliticalParty "Most-Híd", 59174); (PoliticalParty "Socialisti.sk", 15925);
  (PoliticalParty "Máme toho dosť!", 9260);
  (PoliticalParty "Slovenská ľudová strana Andreja Hlinku", 8191);
  (PoliticalParty "Demokratická strana", 4194); (PoliticalParty "Solidarita-HPCh", 3296);
  (PoliticalParty "STAROSTOVIA A NEZÁVISLÍ KANDIDÁTI", 2018);
  (PoliticalParty "Slovenské Hnutie Obrody", 1966); (PoliticalParty "Hlas ľudu", 1887);
  (PoliticalParty "Práca slovenského národa", 1261);
  (PoliticalParty "99 % – občiansky hlas", 991); (PoliticalParty "Slovenská liga", 809)]%N.

(** ** The German 2017 population apportionment (notebook, first part) *)

Definition land_inhab : mapping string := [
  ("Schleswig-Holstein", 2673803); ("Hamburg", 1525090); ("Niedersachsen", 7278789);
  ("Bremen", 568510); ("Nordrhein-Westfalen", 15707569); ("Hessen", 5281198);
  ("Rheinland-Pfalz", 3661245); ("Baden-Württemberg", 9365001); ("Bayern", 11362245);
  ("Saarland", 899748); ("Berlin", 2975745); ("Brandenburg", 2391746);
  ("Mecklenburg-Vorpommern", 1548400); ("Sachsen", 3914671); ("Sachsen-Anhalt", 2145671);
  ("Thüringen", 2077901)]%N.

Definition prop_eval : apportionment := HighestAverages sainte_lague.

Local Close Scope string_scope.

(** ** Conversion utilities (spec 4.5) *)

Section Convert.
Context {K : Type} `{EqbKey K}.

(** Modelled from the spec: [MergedDistributions().convert(nested)]: sum
    the values of every region per key into one flat mapping, keys in order
    of first appearance. *)
Definition merged_distributions (regions : list (string * mapping K)) : mapping K :=
  fold_left (fun acc '(_, sub) => fold_left (fun acc '(k, v) => add_to k v acc) sub acc) regions [].

(** Modelled from the spec: [SelectionToDistribution()]: one seat per
    winner. *)
Definition selection_to_distribution (sel : list K) : mapping K :=
  fold_left (fun acc c => add_to c 1 acc) sel [].

(** Modelled from the spec: [Plurality()] selecting [n] winners: the
    candidates with the most votes, ties in input order. *)
Definition plurality (votes : mapping K) (n : nat) : list K :=
  firstn n (map fst (sort_desc snd votes)).

End Convert.

(** ** Combinators over regions and the MMP orchestration (spec 4.6, 4.7) *)

(** Modelled from the spec: the [apportioner] of [ByConstituency]: a
    constant for every region, a fixed region-to-seats mapping, or a seat
    count rule that apportions the requested total among the regions by
    their vote totals (a region it gives no seat has zero seats). *)
Inductive apportioner : Type :=
| ApportionConst (n : N)
| ApportionFixed (seats : mapping string)
| ApportionBy (a : apportionment).

Definition region_seats (app : apportioner) (votes : nested candidate) (T : N)
  : result (mapping string) :=
  match app with
  | ApportionConst n => Ok (map (fun '(r, _) => (r, n)) votes)
  | ApportionFixed seats => Ok seats
  | ApportionBy a =>
      s <- apportion a (map (fun '(r, v) => (r, total v)) votes) T ;;
      Ok (map (fun '(r, _) => (r, get r s)) votes)
  end.

(** Modelled from the spec: [ByConstituency(evaluator, apportioner,
    preselector)] over one level of regions: each region's votes, filtered
    by the preselector against that region's votes and carried-over result,
    are apportioned independently at the region's seat count; a region
    missing from the seat mapping is invalid input. *)
Record by_constituency : Type := {
  bc_evaluator : apportionment;
  bc_apportioner : apportioner;
  bc_preselector : option threshold
}.

Definition evaluate_by_constituency (bc : by_constituency) (votes prev : nested candidate) (T : N)
  : result (nested candidate) :=
  seats <- region_seats (bc_apportioner bc) votes T ;;
  mapM (fun '(r, v) =>
          let v' := match bc_preselector bc with
                    | None => v
                    | Some th =>
                        let admitted := select th v (region_get r prev) in
                        filter (fun '(c, _) => mem c admitted) v
                    end in
          n <- match lookup r seats with Some n => Ok n | None => Err InvalidInput end ;;
          s <- apportion (bc_evaluator bc) v' n ;;
          Ok (r, s)) votes.

(** Modelled from the spec: the first round of the notebook's
    [round1_eval]: in every constituency of every state one plurality
    winner, converted to a distribution and merged per state. *)
Definition round1 (erst : list (string * nested candidate)) : nested candidate :=
  map (fun '(land, wks) =>
         (land, merged_distributions
                  (map (fun '(wk, v) => (wk, selection_to_distribution (plurality v 1))) wks)))
      erst.








(** The notebook's recorded outputs. *)
Local Open Scope string_scope.

Definition land_seats : mapping string := [
  ("Nordrhein-Westfalen", 128); ("Bayern", 93); ("Baden-Württemberg", 76);
  ("Niedersachsen", 59); ("Hessen", 43); ("Sachsen", 32); ("Rheinland-Pfalz", 30);
  ("Berlin", 24); ("Schleswig-Holstein", 22); ("Brandenburg", 20);
  ("Sachsen-Anhalt", 17); ("Thüringen", 17); ("Mecklenburg-Vorpommern", 13);
  ("Hamburg", 12); ("Saarland", 7); ("Bremen", 5)]%N.

Definition sk_result : mapping candidate := [
  (PoliticalParty "OĽANO", 53); (PoliticalParty "Smer", 38);
  (PoliticalParty "Sme rodina", 17); (PoliticalParty "ĽSNS", 17);
  (PoliticalParty "Sloboda a Solidarita", 13); (PoliticalParty "Za ľudí", 12)]%N.



Local Close Scope string_scope.


(** ** The notebook's own code: vote loading and evaluator wiring *)

(** Python dicts with string keys, as the notebook builds them. *)
Section PyDict.
Context {V : Type}.

(** [d[k]]; [None] where Python raises a [KeyError]. *)
Fixpoint py_lookup (k : string) (d : list (string * V)) : option V :=
  match d with
  | [] => None
  | (k', v) :: d' => if String.eqb k k' then Some v else py_lookup k d'
  end.

(** [d[k] = v]: an existing key keeps its place, a new key goes last. *)
Fixpoint dict_set (k : string) (v : V) (d : list (string * V)) : list (string * V) :=
  match d with
  | [] => [(k, v)]
  | (k', v') :: d' => if String.eqb k k' then (k', v) :: d' else (k', v') :: dict_set k v d'
  end.

(** [dict(pairs)] *)
Definition dict_of_pairs (pairs : list (string * V)) : list (string * V) :=
  fold_left (fun d '(k, v) => dict_set k v d) pairs [].

End PyDict.

(** [l[0::2]] *)
Fixpoint every_other {A : Type} (l : list A) : list A :=
  match l with
  | [] => []
  | [x] => [x]
  | x :: _ :: l' => x :: every_other l'
  end.

(** [s.split(sep)] with a one-character separator ([''.split('-') == ['']]).
    In UTF-8 no byte of a multi-byte character is an ASCII character, so
    splitting the bytes splits the characters. *)
Fixpoint py_split (sep : ascii) (s : string) : list string :=
  match s with
  | EmptyString => [EmptyString]
  | String ch rest =>
      let pieces := py_split sep rest in
      if Ascii.eqb ch sep then EmptyString :: pieces
      else match pieces with
           | p :: ps => String ch p :: ps
           | [] => [String ch EmptyString]
           end
  end.

(** [zip( *rows)]: the [i]-th tuple holds the [i]-th cell of every row, for
    every [i] below the length of the shortest row; no rows, no tuples. *)
Definition zip_star (rows : list (list string)) : list (list string) :=
  match rows with
  | [] => []
  | r :: rs =>
      let width := fold_left (fun m row => Nat.min m (List.length row)) rs (List.length r) in
      map (fun i => map (fun row => nth i row EmptyString) rows) (seq 0 width)
  end.

Section CsvLoading.
(** Python's [int] applied to one CSV cell: its value, or the [ValueError]
    it raises. *)
Variable py_int : string -> result Z.

(** German vote loading: [int(x) if x else 0] on one cell. *)
Definition cell_value (x : string) : result Z :=
  if String.eqb x EmptyString then Ok 0%Z else py_int x.

(** [[item for item in rows[0][2:] if item]] *)
Definition party_names_of (header : list string) : list string :=
  filter (fun item => negb (String.eqb item EmptyString)) (skipn 2 header).

(** [erst_stimmen] and [zweit_stimmen]: state to constituency to party to
    votes. *)
Definition stimmen : Type := list (string * list (string * list (string * Z))).

(** [stimmen.setdefault(land, {})[wahlkreis] = v] *)
Definition setdefault_set (land wahlkreis : string) (v : list (string * Z)) (st : stimmen) : stimmen :=
  let inner := match py_lookup land st with Some d => d | None => [] end in
  dict_set land (dict_set wahlkreis v inner) st.

(** [stimmen[land][wahlkreis]]; [None] for a [KeyError]. *)
Definition constituency_of (land wahlkreis : string) (st : stimmen) : option (list (string * Z)) :=
  match py_lookup land st with Some d => py_lookup wahlkreis d | None => None end.

(** [stimmen[land][wahlkreis][party]] *)
Definition stimmen_get (land wahlkreis party : string) (st : stimmen) : option Z :=
  match constituency_of land wahlkreis st with Some e => py_lookup party e | None => None end.

(** One pass of the loop over [rows[2:]]: unpack [wahlkreis, land =
    row[:2]] (a [ValueError] on a row of fewer than two cells), convert
    [row[2:]], then store [dict(zip(party_names, row[2::2]))] as first votes
    and [dict(zip(party_names, row[3::2]))] as second votes. *)
Definition load_row (party_names : list string) (acc : stimmen * stimmen) (row : list string)
  : result (stimmen * stimmen) :=
  let '(erst, zweit) := acc in
  match row with
  | wahlkreis :: land :: cells =>
      vals <- mapM cell_value cells ;;
      Ok (setdefault_set land wahlkreis (dict_of_pairs (combine party_names (every_other vals))) erst,
          setdefault_set land wahlkreis (dict_of_pairs (combine party_names (every_other (tl vals)))) zweit)
  | _ => Err InvalidInput
  end.

Fixpoint load_rows (party_names : list string) (acc : stimmen * stimmen) (rows : list (list string))
  : result (stimmen * stimmen) :=
  match rows with
  | [] => Ok acc
  | row :: rows' => acc' <- load_row party_names acc row ;; load_rows party_names acc' rows'
  end.

(** The German loading cell over the rows of the CSV file: [rows[0]] is the
    header (an [IndexError] on an empty file), [rows[1]] is skipped. *)
Definition load_stimmen (rows : list (list string)) : result (stimmen * stimmen) :=
  match rows with
  | [] => Err InvalidInput
  | header :: _ => load_rows (party_names_of header) ([], []) (skipn 2 rows)
  end.

(** Slovak vote loading: [party_names, coalition_flags, votes, seats =
    [list(x) for x in zip( *rows)]], a [ValueError] unless there are exactly
    four columns. *)
Definition sk_columns (rows : list (list string))
  : result (list string * list string * list string * list string) :=
  match zip_star rows with
  | [party_names; coalition_flags; votes; seats] => Ok (party_names, coalition_flags, votes, seats)
  | _ => Err InvalidInput
  end.

(** One element of [parties]: a coalition of the hyphen-separated parts of
    its name when [int(coalflag)] is non-zero, else a political party. *)
Definition make_party (name coalflag : string) : result candidate :=
  flag <- py_int coalflag ;;
  Ok (if Z.eqb flag 0 then PoliticalParty name
      else Coalition name (map PoliticalParty (py_split "-"%char name))).

Definition sk_parties (party_names coalition_flags : list string) : result (list candidate) :=
  mapM (fun '(name, coalflag) => make_party name coalflag) (combine party_names coalition_flags).

End CsvLoading.

(** [str.count('-')] *)
Fixpoint count_char (ch : ascii) (s : string) : nat :=
  match s with
  | EmptyString => O
  | String c rest => (if Ascii.eqb c ch then 1 else 0) + count_char ch rest
  end.

(** An unsigned decimal reading of digit strings, the [int] of the examples. *)
Fixpoint digits_value (s : string) (acc : Z) : result Z :=
  match s with
  | EmptyString => Ok acc
  | String ch rest =>
      let d := (Z.of_nat (nat_of_ascii ch) - 48)%Z in
      if ((0 <=? d) && (d <=? 9))%Z then digits_value rest (10 * acc + d)%Z else Err InvalidInput
  end.

Definition decimal_int (s : string) : result Z :=
  match s with
  | EmptyString => Err InvalidInput
  | _ => digits_value s 0%Z
  end.

(** The shape of a row that sets a constituency, if any. *)
Definition sets_constituency (land wk : string) (row : list string) : Prop :=
  match row with w :: l :: _ => w = wk /\ l = land | _ => False end.

(** The invariants of the nested vote dictionaries: distinct states,
    distinct constituencies within each state. *)
Definition stimmen_wf (st : stimmen) : Prop :=
  NoDup (map fst st) /\ Forall (fun '(_, d) => NoDup (map fst d)) st.

Definition stimmen_shape (st : stimmen) : list (string * list string) :=
  map (fun '(l, d) => (l, map fst d)) st.

Local Open Scope string_scope.

(** A sample file: a header, the first/second vote
    header row and two constituencies of one state. *)
Definition sample_rows : list (list string) := [
  ["Wahlkreis"; "Land"; "A"; ""; "B"; ""];
  [""; ""; "Erst"; "Zweit"; "Erst"; "Zweit"];
  ["W1"; "L1"; "10"; "20"; ""; "5"];
  ["W2"; "L1"; "7"; "8"; "9"; "1"]].

Definition sample_loaded : stimmen * stimmen :=
  match load_stimmen decimal_int sample_rows with Ok r => r | Err _ => ([], []) end.

(** A file whose last row stops after the first votes of the second party. *)
Definition short_rows : list (list string) := [
  ["Wahlkreis"; "Land"; "A"; ""; "B"; ""];
  [""; ""; "Erst"; "Zweit"; "Erst"; "Zweit"];
  ["W1"; "L1"; "10"; "20"; "3"; "5"];
  ["W2"; "L1"; "7"; "8"; "9"]].

Definition short_loaded : stimmen * stimmen :=
  match load_stimmen decimal_int short_rows with Ok r => r | Err _ => ([], []) end.

Local Close Scope string_scope.

(** The German evaluators of the notebook.  [RelativeThreshold(Decimal('.05'))]
    is given no [accept_equal], whose default the notebook does not show, so
    it is a parameter here. *)
Definition land_prop_eval (accept_equal : bool) : by_constituency :=
  {| bc_evaluator := prop_eval; bc_apportioner := ApportionFixed land_seats;
     bc_preselector := Some (RelativeThreshold 5 100 accept_equal) |}.

Definition nat_threshold (accept_equal : bool) : threshold :=
  AlternativeThresholds [RelativeThreshold 5 100 accept_equal; PreviousGainThreshold (AbsoluteThreshold 3)].

Definition nat_eval (accept_equal : bool) : evaluator :=
  Conditioned (nat_threshold accept_equal) (Apportion prop_eval).


(** Summing a flattened list of entries per key directly: the value of [c]
    is the sum of all entries with key [c], and [c] is present when some
    entry has key [c]. *)
Section FlatSum.
Context {K : Type} `{EqbKey K}.

Definition occurs (c : K) (entries : mapping K) : bool :=
  existsb (fun '(k, _) => key_eqb k c) entries.

Definition fsum (c : K) (entries : mapping K) : N :=
  N_sum (map snd (filter (fun '(k, _) => key_eqb k c) entries)).

Definition flat_total (c : K) (entries : mapping K) : option N :=
  if occurs c entries then Some (fsum c entries) else None.

End FlatSum.

(** * Properties *)

(** ** Sums over mappings *)

Section SumLemmas.
Context {K : Type} `{EqbKey K}.

Lemma N_sum_app : forall l1 l2, N_sum (l1 ++ l2) = (N_sum l1 + N_sum l2)%N.
Proof. induction l1; intros; simpl; [reflexivity | rewrite IHl1; lia]. Qed.

Lemma N_sum_perm : forall l1 l2, Permutation l1 l2 -> N_sum l1 = N_sum l2.
Proof. intros l1 l2 P; induction P; simpl; lia. Qed.

Lemma total_add_to : forall (k : K) v m, total (add_to k v m) = (total m + v)%N.
Proof.
  unfold total. intros k v m; induction m as [| [k' v'] m IH]; simpl; [lia |].
  destruct (key_eqb k k'); simpl; [| rewrite IH]; lia.
Qed.

End SumLemmas.

(** ** The divisor method awards its whole budget *)

Section DivisorLemmas.
Context {K : Type} `{EqbKey K}.

Lemma argmax_quotient_some : forall m (seats votes : mapping K),
  votes <> [] -> exists x, argmax_quotient m seats votes = Some x.
Proof.
  intros m seats [| [c v] rest] Hne; [congruence |]. simpl.
  destruct (argmax_quotient m seats rest) as [[[c' v'] d'] |];
    [destruct (quotient_gt _ _ _ _) |]; eauto.
Qed.

Lemma ha_loop_total : forall m (votes : mapping K) n seats,
  votes <> [] -> total (ha_loop m votes n seats) = (total seats + N.of_nat n)%N.
Proof.
  intros m votes n; induction n as [| n IH]; intros seats Hne; simpl; [lia |].
  destruct (argmax_quotient_some m seats votes Hne) as [[[c v] d] ->].
  rewrite IH by exact Hne. rewrite total_add_to. lia.
Qed.

Lemma fold_add_to_total : forall (f : nat -> K) l (acc : mapping K),
  total (fold_left (fun seats i => add_to (f i) 1 seats) l acc) = (total acc + N.of_nat (List.length l))%N.
Proof.
  intros f l; induction l as [| i l IH]; intros acc; simpl; [lia |].
  rewrite IH, total_add_to. lia.
Qed.

Lemma split_evenly_total : forall (votes : mapping K) d T, total (split_evenly votes d T) = T.
Proof.
  intros votes d T. unfold split_evenly. rewrite fold_add_to_total, length_seq.
  simpl. lia.
Qed.

Lemma highest_averages_total : forall m (votes : mapping K) T s,
  highest_averages m votes T = Ok s -> total s = T.
Proof.
  unfold highest_averages. intros m votes T s Hok. destruct votes as [| [c v] votes].
  - destruct (N.eqb_spec T 0); [| discriminate]. injection Hok as <-. subst. reflexivity.
  - destruct (total _ =? 0)%N; injection Hok as <-; [apply split_evenly_total |].
    rewrite ha_loop_total by discriminate. simpl. lia.
Qed.


End DivisorLemmas.

(** ** The largest-remainder method with the Hare quota awards exactly [T] *)

Section SortLemmas.
Context {A : Type} (key : A -> N).

Lemma insert_desc_perm : forall x l, Permutation (insert_desc key x l) (x :: l).
Proof.
  intros x l; induction l as [| y l IH]; simpl; [auto |].
  destruct (key x <? key y)%N; [| auto].
  eapply perm_trans; [apply perm_skip, IH | apply perm_swap].
Qed.

Lemma sort_desc_perm : forall l, Permutation (sort_desc key l) l.
Proof.
  induction l as [| x l IH]; simpl; [auto |].
  eapply perm_trans; [apply insert_desc_perm | apply perm_skip, IH].
Qed.

End SortLemmas.

Lemma in_firstn_in {A : Type} : forall n (l : list A) x, In x (firstn n l) -> In x l.
Proof. intros n l x Hin. rewrite <- (firstn_skipn n l). apply in_or_app. auto. Qed.

Lemma NoDup_firstn_of {A : Type} : forall n (l : list A), NoDup l -> NoDup (firstn n l).
Proof.
  induction n as [| n IH]; intros [| x l] Hl; simpl; try apply NoDup_nil.
  inversion Hl as [| ? ? Hx Hl']; subst. constructor; [| auto].
  intros Hin. apply Hx. eapply in_firstn_in; eauto.
Qed.



Lemma map_snd_combine_of {A B : Type} : forall (l1 : list A) (l2 : list B),
  List.length l1 = List.length l2 -> map snd (combine l1 l2) = l2.
Proof.
  induction l1 as [| a l1 IH]; intros [| b l2] Hlen; simpl in *; try congruence.
  rewrite IH by lia. reflexivity.
Qed.

Section RemainderLemmas.
Context {K : Type} `{EqbKey K}.






End RemainderLemmas.

(** ** Keys of results *)

Section KeyLemmas.
Context {K : Type} `{EqbKey K}.

Lemma key_eqb_refl : forall k : K, key_eqb k k = true.
Proof. intros k. apply key_eqb_eq. reflexivity. Qed.

Lemma key_eqb_false : forall a b : K, key_eqb a b = false -> a <> b.
Proof. intros a b Hf ->. rewrite key_eqb_refl in Hf. discriminate. Qed.

Lemma lookup_none_iff : forall (k : K) m, lookup k m = None <-> ~ In k (map fst m).
Proof.
  intros k m; induction m as [| [k' v'] m IH]; simpl; [tauto |].
  destruct (key_eqb k k') eqn:E.
  - apply key_eqb_eq in E. subst. split; [discriminate | tauto].
  - apply key_eqb_false in E. rewrite IH. intuition congruence.
Qed.

Lemma lookup_in_nodup : forall (k : K) v m,
  NoDup (map fst m) -> In (k, v) m -> lookup k m = Some v.
Proof.
  intros k v m; induction m as [| [k' v'] m IH]; simpl; intros Hnd Hin; [contradiction |].
  inversion Hnd as [| ? ? Hk' Hnd']; subst.
  destruct Hin as [Heq | Hin].
  - injection Heq as -> ->. rewrite key_eqb_refl. reflexivity.
  - destruct (key_eqb k k') eqn:E.
    + apply key_eqb_eq in E. subst. exfalso. apply Hk'. apply in_map_iff. exists (k', v); auto.
    + auto.
Qed.

Lemma get_in_nodup : forall (k : K) v m, NoDup (map fst m) -> In (k, v) m -> get k m = v.
Proof. intros k v m Hnd Hin. unfold get. rewrite (lookup_in_nodup k v m Hnd Hin). reflexivity. Qed.

Lemma in_keys_add_to : forall (k c : K) v m,
  In k (map fst (add_to c v m)) <-> k = c \/ In k (map fst m).
Proof.
  intros k c v m; induction m as [| [k' v'] m IH]; simpl; [intuition congruence |].
  destruct (key_eqb c k') eqn:E; simpl.
  - apply key_eqb_eq in E. subst. intuition congruence.
  - rewrite IH. tauto.
Qed.

Lemma argmax_quotient_in : forall m (seats votes : mapping K) c v d,
  argmax_quotient m seats votes = Some (c, v, d) -> In (c, v) votes.
Proof.
  intros m seats votes; induction votes as [| [c0 v0] rest IH]; simpl; intros c v d Harg;
    [discriminate |].
  destruct (argmax_quotient m seats rest) as [[[c' v'] d'] |].
  - match type of Harg with context [quotient_gt ?a ?b ?x ?y] => destruct (quotient_gt a b x y) end.
    + injection Harg as E1 E2 E3; subst. right. eapply IH; reflexivity.
    + injection Harg as E1 E2 E3; subst. left. reflexivity.
  - injection Harg as E1 E2 E3; subst. left. reflexivity.
Qed.

Lemma ha_loop_keys : forall m (votes : mapping K) n seats k,
  In k (map fst (ha_loop m votes n seats)) -> In k (map fst votes) \/ In k (map fst seats).
Proof.
  intros m votes n; induction n as [| n IH]; intros seats k Hin; simpl in Hin; [auto |].
  destruct (argmax_quotient m seats votes) as [[[c v] d] |] eqn:Harg; [| auto].
  destruct (IH _ _ Hin) as [Hv | Hs]; [auto |].
  apply in_keys_add_to in Hs as [-> | Hs]; [| auto].
  left. apply in_map_iff. exists (c, v). split; [reflexivity | eapply argmax_quotient_in; eauto].
Qed.

Lemma fold_add_to_keys : forall (f : nat -> K) l (acc : mapping K) k,
  In k (map fst (fold_left (fun seats i => add_to (f i) 1 seats) l acc)) ->
  (exists i, In i l /\ k = f i) \/ In k (map fst acc).
Proof.
  intros f l; induction l as [| i l IH]; simpl; intros acc k Hin; [auto |].
  destruct (IH _ _ Hin) as [[j [Hj ->]] | Hs]; [left; eauto |].
  apply in_keys_add_to in Hs as [-> | Hs]; [left; eauto | auto].
Qed.

Lemma split_evenly_keys : forall (votes : mapping K) d T k,
  votes <> [] -> In k (map fst (split_evenly votes d T)) -> In k (map fst votes).
Proof.
  intros votes d T k Hne Hin. unfold split_evenly in Hin.
  destruct (fold_add_to_keys _ _ _ _ Hin) as [[i [_ ->]] | []].
  apply nth_In. rewrite length_map. apply Nat.mod_upper_bound.
  destruct votes; [congruence | discriminate].
Qed.

Lemma keys_map_combine : forall (g : nat * (K * N) -> K * N) (l : list nat) (votes : mapping K),
  (forall x, fst (g x) = fst (snd x)) -> List.length l = List.length votes ->
  map fst (map g (combine l votes)) = map fst votes.
Proof.
  intros g l votes Hg. revert l. induction votes as [| [c v] votes IH]; intros [| i l] Hlen;
    simpl in *; try (reflexivity || discriminate).
  rewrite Hg. simpl. f_equal. apply IH. lia.
Qed.

Lemma largest_remainder_keys : forall q (votes : mapping K) T s,
  largest_remainder q votes T = Ok s -> map fst s = map fst votes.
Proof.
  intros q votes T s. unfold largest_remainder.
  destruct (quota q (total votes) T) as [qn qd].
  destruct ((qn =? 0) || (qd =? 0))%N; [discriminate |]. cbv zeta.
  match goal with |- (if (total ?x =? T)%N then _ else _) = _ -> _ =>
    destruct (total x =? T)%N; [intros Hok; injection Hok as <- | discriminate]
  end.
  apply keys_map_combine; [intros [i [c v]]; reflexivity | apply length_seq].
Qed.

Lemma apportion_keys : forall a (votes : mapping K) T s k,
  apportion a votes T = Ok s -> In k (map fst s) -> In k (map fst votes).
Proof.
  intros [m | q] votes T s k Hok Hin; simpl in Hok.
  - unfold highest_averages in Hok. destruct votes as [| [c v] votes].
    + destruct (T =? 0)%N; [injection Hok as <- | discriminate]. contradiction.
    + destruct (total _ =? 0)%N; injection Hok as <-;
        [eapply split_evenly_keys; [discriminate | exact Hin] |].
      destruct (ha_loop_keys _ _ _ _ _ Hin) as [Hv | []]. exact Hv.
  - rewrite (largest_remainder_keys _ _ _ _ Hok) in Hin. exact Hin.
Qed.

End KeyLemmas.

Lemma select_in : forall th votes prev c,
  In c (select th votes prev) <-> exists v, In (c, v) votes /\ admits th votes prev c = true.
Proof.
  intros th votes prev c. unfold select. rewrite in_map_iff. split.
  - intros [[c' v] [Heq Hin]]. simpl in Heq. subst c'. apply filter_In in Hin as [Hin Ha].
    exists v. auto.
  - intros [v [Hin Ha]]. exists (c, v). split; [reflexivity |]. apply filter_In. auto.
Qed.

Lemma mem_in : forall (c : candidate) l, mem c l = true <-> In c l.
Proof.
  intros c l. unfold mem. rewrite existsb_exists. split.
  - intros [x [Hx Heq]]. apply key_eqb_eq in Heq. subst. exact Hx.
  - intros Hx. exists c. split; [exact Hx | apply key_eqb_refl].
Qed.

Lemma evaluate_keys : forall e votes prev T s c,
  evaluate e votes prev T = Ok s -> In c (map fst s) -> In c (map fst votes).
Proof.
  induction e as [a | th e IH | e IH n]; intros votes prev T s c Hok Hin; simpl in Hok.
  - eapply apportion_keys; eauto.
  - specialize (IH _ _ _ _ _ Hok Hin). apply in_map_iff in IH as [[c' v] [Heq Hf]].
    simpl in Heq. subst c'. apply filter_In in Hf as [Hf _]. apply in_map_iff.
    exists (c, v). auto.
  - eapply IH; eauto.
Qed.

Lemma admits_bracketer : forall brackets default votes prev c,
  admits (CoalitionMemberBracketer brackets default) votes prev c
  = admits (match find_bracket brackets (member_count c) with Some t => t | None => default end)
           votes prev c.
Proof.
  intros brackets default votes prev c. induction brackets as [| [n t] brs IH]; [reflexivity |].
  simpl. destruct (Nat.eqb n (member_count c)); [reflexivity | exact IH].
Qed.

(** ** MergedDistributions *)

Section MergeLemmas.
Context {K : Type} `{EqbKey K}.

Definition add_entries (l : mapping K) (acc : mapping K) : mapping K :=
  fold_left (fun acc '(k, v) => add_to k v acc) l acc.

Lemma merged_as_flat : forall (regions : list (string * mapping K)),
  merged_distributions regions = add_entries (List.concat (map snd regions)) [].
Proof.
  unfold merged_distributions, add_entries. intros regions. generalize (@nil (K * N)).
  induction regions as [| [r sub] regions IH]; intros acc; simpl; [reflexivity |].
  rewrite fold_left_app. apply IH.
Qed.

Lemma lookup_add_to : forall (c k : K) v m,
  lookup c (add_to k v m) = if key_eqb c k then Some (get c m + v)%N else lookup c m.
Proof.
  intros c k v m. unfold get. induction m as [| [k' v'] m IH]; simpl.
  - destruct (key_eqb c k); reflexivity.
  - destruct (key_eqb k k') eqn:Ekk'.
    + apply key_eqb_eq in Ekk'. subst k'. simpl. destruct (key_eqb c k); reflexivity.
    + simpl. destruct (key_eqb c k') eqn:Eck'.
      * apply key_eqb_eq in Eck'. subst k'. destruct (key_eqb c k) eqn:Eck; [| reflexivity].
        apply key_eqb_eq in Eck. subst. rewrite key_eqb_refl in Ekk'. discriminate.
      * exact IH.
Qed.

Lemma get_add_to : forall (c k : K) v m,
  get c (add_to k v m) = if key_eqb c k then (get c m + v)%N else get c m.
Proof.
  intros c k v m. unfold get at 1. rewrite lookup_add_to. destruct (key_eqb c k); reflexivity.
Qed.

Lemma key_eqb_sym : forall a b : K, key_eqb a b = key_eqb b a.
Proof.
  intros a b. destruct (key_eqb a b) eqn:E1; destruct (key_eqb b a) eqn:E2; try reflexivity.
  - apply key_eqb_eq in E1. subst. rewrite key_eqb_refl in E2. discriminate.
  - apply key_eqb_eq in E2. subst. rewrite key_eqb_refl in E1. discriminate.
Qed.

Lemma lookup_add_entries : forall (c : K) l acc,
  lookup c (add_entries l acc)
  = if (match lookup c acc with Some _ => true | None => false end) || occurs c l
    then Some (get c acc + fsum c l)%N else None.
Proof.
  unfold add_entries, occurs, fsum. intros c l; induction l as [| [k v] l IH]; intros acc; simpl.
  - unfold get. destruct (lookup c acc); simpl; [f_equal; lia | reflexivity].
  - rewrite IH, lookup_add_to, get_add_to, (key_eqb_sym k c).
    destruct (key_eqb c k); simpl.
    + rewrite orb_true_r. simpl. f_equal. lia.
    + reflexivity.
Qed.

Lemma merged_lookup : forall (c : K) (regions : list (string * mapping K)),
  lookup c (merged_distributions regions) = flat_total c (List.concat (map snd regions)).
Proof.
  intros c regions. rewrite merged_as_flat, lookup_add_entries. unfold flat_total, get. simpl.
  destruct (occurs c _); reflexivity.
Qed.

Lemma occurs_lookup : forall (c : K) m,
  occurs c m = match lookup c m with Some _ => true | None => false end.
Proof.
  unfold occurs. intros c m; induction m as [| [k v] m IH]; simpl; [reflexivity |].
  destruct (key_eqb k c) eqn:E1; destruct (key_eqb c k) eqn:E2; try reflexivity; [| |exact IH].
  - apply key_eqb_eq in E1. subst. rewrite key_eqb_refl in E2. discriminate.
  - apply key_eqb_eq in E2. subst. rewrite key_eqb_refl in E1. discriminate.
Qed.

Lemma fsum_not_occurs : forall (c : K) m, occurs c m = false -> fsum c m = 0%N.
Proof.
  unfold occurs, fsum. intros c m; induction m as [| [k v] m IH]; simpl; [reflexivity |].
  destruct (key_eqb k c); [discriminate | exact IH].
Qed.

Lemma fsum_nodup : forall (c : K) m, NoDup (map fst m) -> fsum c m = get c m.
Proof.
  unfold fsum, get. intros c m; induction m as [| [k v] m IH]; simpl; intros Hnd; [reflexivity |].
  inversion Hnd as [| ? ? Hk Hnd']; subst.
  destruct (key_eqb k c) eqn:E1.
  - apply key_eqb_eq in E1. subst k. rewrite key_eqb_refl. simpl.
    assert (Hz : fsum c m = 0%N).
    { apply fsum_not_occurs. rewrite occurs_lookup.
      destruct (lookup c m) eqn:El; [| reflexivity].
      exfalso. apply lookup_none_iff in Hk. congruence. }
    unfold fsum in Hz. rewrite Hz. lia.
  - assert (E2 : key_eqb c k = false).
    { destruct (key_eqb c k) eqn:E; [| reflexivity]. apply key_eqb_eq in E. subst.
      rewrite key_eqb_refl in E1. discriminate. }
    rewrite E2. auto.
Qed.

Lemma add_to_nodup : forall (k : K) v m, NoDup (map fst m) -> NoDup (map fst (add_to k v m)).
Proof.
  intros k v m; induction m as [| [k' v'] m IH]; simpl; intros Hnd.
  - constructor; [intros [] | constructor].
  - inversion Hnd as [| ? ? Hk' Hnd']; subst.
    destruct (key_eqb k k') eqn:E; simpl; constructor; auto.
    intros Hin. apply in_keys_add_to in Hin as [-> | Hin]; [| contradiction].
    rewrite key_eqb_refl in E. discriminate.
Qed.

Lemma add_entries_nodup : forall l (acc : mapping K),
  NoDup (map fst acc) -> NoDup (map fst (add_entries l acc)).
Proof.
  unfold add_entries. intros l; induction l as [| [k v] l IH]; intros acc Hnd; simpl; [exact Hnd |].
  apply IH, add_to_nodup, Hnd.
Qed.

Lemma merged_nodup : forall (regions : list (string * mapping K)),
  NoDup (map fst (merged_distributions regions)).
Proof. intros regions. rewrite merged_as_flat. apply add_entries_nodup. constructor. Qed.

Lemma occurs_app : forall (c : K) l1 l2, occurs c (l1 ++ l2) = occurs c l1 || occurs c l2.
Proof. intros. unfold occurs. apply existsb_app. Qed.

Lemma fsum_app : forall (c : K) l1 l2, fsum c (l1 ++ l2) = (fsum c l1 + fsum c l2)%N.
Proof. intros. unfold fsum. rewrite filter_app, map_app. apply N_sum_app. Qed.

(** The merged mapping of some regions has the occurrences and per-key sums
    of their flattened entries. *)
Lemma merged_occurs : forall (c : K) regions,
  occurs c (merged_distributions regions) = occurs c (List.concat (map snd regions)).
Proof.
  intros c regions. rewrite occurs_lookup, merged_lookup. unfold flat_total.
  destruct (occurs c _); reflexivity.
Qed.

Lemma merged_fsum : forall (c : K) regions,
  fsum c (merged_distributions regions) = fsum c (List.concat (map snd regions)).
Proof.
  intros c regions. rewrite fsum_nodup by apply merged_nodup. unfold get.
  rewrite merged_lookup. unfold flat_total.
  destruct (occurs c _) eqn:E; [reflexivity | symmetry; apply fsum_not_occurs, E].
Qed.

Lemma occurs_perm : forall (c : K) l1 l2, Permutation l1 l2 -> occurs c l1 = occurs c l2.
Proof.
  unfold occurs. intros c l1 l2 P; induction P as [| [k v] l1 l2 P IH | [k v] [k' v'] l | l1 l2 l3 P1 IH1 P2 IH2];
    simpl; try congruence.
  - rewrite !orb_assoc, (orb_comm (key_eqb k' c)). reflexivity.
Qed.

Lemma filter_perm : forall (f : K * N -> bool) l1 l2,
  Permutation l1 l2 -> Permutation (filter f l1) (filter f l2).
Proof.
  intros f l1 l2 P; induction P as [| x l1 l2 P IH | x y l | l1 l2 l3 P1 IH1 P2 IH2]; simpl.
  - constructor.
  - destruct (f x); [apply perm_skip |]; exact IH.
  - destruct (f x), (f y); try apply perm_swap; try apply perm_skip; apply Permutation_refl.
  - eapply perm_trans; eauto.
Qed.

Lemma fsum_perm : forall (c : K) l1 l2, Permutation l1 l2 -> fsum c l1 = fsum c l2.
Proof.
  unfold fsum. intros c l1 l2 P. apply N_sum_perm, Permutation_map, filter_perm, P.
Qed.

Lemma concat_perm : forall (l1 l2 : list (string * mapping K)),
  Permutation l1 l2 -> Permutation (List.concat (map snd l1)) (List.concat (map snd l2)).
Proof.
  intros l1 l2 P; induction P as [| x l1 l2 P IH | x y l | l1 l2 l3 P1 IH1 P2 IH2]; simpl.
  - constructor.
  - apply Permutation_app_head, IH.
  - rewrite !app_assoc. apply Permutation_app_tail, Permutation_app_comm.
  - eapply perm_trans; eauto.
Qed.

Lemma fsum_nodup_regions : forall (c : K) (regions : list (string * mapping K)),
  Forall (fun '(_, m) => NoDup (map fst m)) regions ->
  fsum c (List.concat (map snd regions)) = N_sum (map (fun '(_, m) => get c m) regions).
Proof.
  intros c regions; induction regions as [| [r m] regions IH]; intros Hall; simpl; [reflexivity |].
  inversion Hall; subst. rewrite fsum_app, fsum_nodup by assumption. rewrite IH by assumption.
  reflexivity.
Qed.

Lemma merged_groups : forall (c : K) (groups : list (string * list (string * mapping K))),
  occurs c (List.concat (map snd (map (fun '(g, rs) => (g, merged_distributions rs)) groups)))
  = occurs c (List.concat (map snd (List.concat (map snd groups)))) /\
  fsum c (List.concat (map snd (map (fun '(g, rs) => (g, merged_distributions rs)) groups)))
  = fsum c (List.concat (map snd (List.concat (map snd groups)))).
Proof.
  intros c groups; induction groups as [| [g rs] groups [IHo IHf]]; simpl; [split; reflexivity |].
  rewrite map_app, concat_app, !occurs_app, !fsum_app, merged_occurs, merged_fsum, IHo, IHf.
  split; reflexivity.
Qed.

End MergeLemmas.

(** ** Errors of the apportionment primitives *)

Lemma bind_err : forall {A B : Type} (r : result A) (f : A -> result B) e,
  bind r f = Err e -> r = Err e \/ exists x, r = Ok x /\ f x = Err e.
Proof. intros A B [x | e'] f e H; simpl in H; [right; eauto | left; congruence]. Qed.

Lemma mapM_err : forall {A B : Type} (f : A -> result B) l e,
  mapM f l = Err e -> exists x, In x l /\ f x = Err e.
Proof.
  intros A B f l e; induction l as [| a l IH]; simpl; intros H; [discriminate |].
  apply bind_err in H as [H | [b [_ H]]]; [exists a; auto |].
  apply bind_err in H as [H | [bs [_ H]]]; [| discriminate].
  destruct (IH H) as [x [Hx Hf]]. exists x; auto.
Qed.

Lemma mapM_ok : forall {A B : Type} (f : A -> result B) l l',
  mapM f l = Ok l' -> Forall2 (fun x y => f x = Ok y) l l'.
Proof.
  intros A B f l; induction l as [| a l IH]; simpl; intros l' H.
  - injection H as <-. constructor.
  - destruct (f a) as [b | e] eqn:Ef; simpl in H; [| discriminate].
    destruct (mapM f l) as [bs | e] eqn:Em; simpl in H; [| discriminate].
    injection H as <-. constructor; auto.
Qed.

Lemma apportion_err : forall {K : Type} `{EqbKey K} a (votes : mapping K) T e,
  apportion a votes T = Err e -> e = InvalidInput \/ e = AllocationInconsistency.
Proof.
  intros K EK [m | q] votes T e H; simpl in H.
  - unfold highest_averages in H. destruct votes as [| [c v] votes];
      [destruct (T =? 0)%N | destruct (total _ =? 0)%N]; left; congruence.
  - unfold largest_remainder in H. destruct (quota q (total votes) T) as [qn qd].
    destruct ((qn =? 0) || (qd =? 0))%N; [left; congruence |]. cbv zeta in H.
    match type of H with (if ?b then _ else _) = _ => destruct b end; right; congruence.
Qed.


(** ** The leveling search *)

Section LevelSearch.
Variable probe : N -> result bool.



End LevelSearch.

(** ** Keys and totals of evaluator results *)

Section ResultKeys.
Context {K : Type} `{EqbKey K}.

Lemma ha_loop_nodup : forall m (votes : mapping K) n seats,
  NoDup (map fst seats) -> NoDup (map fst (ha_loop m votes n seats)).
Proof.
  intros m votes n; induction n as [| n IH]; intros seats Hnd; simpl; [exact Hnd |].
  destruct (argmax_quotient m seats votes) as [[[c0 v0] d0] |]; [| exact Hnd].
  apply IH, add_to_nodup, Hnd.
Qed.

Lemma fold_add_to_nodup : forall (f : nat -> K) l (acc : mapping K),
  NoDup (map fst acc) -> NoDup (map fst (fold_left (fun seats i => add_to (f i) 1 seats) l acc)).
Proof.
  intros f l; induction l as [| i l IH]; intros acc Hnd; simpl; [exact Hnd |].
  apply IH, add_to_nodup, Hnd.
Qed.

Lemma apportion_nodup : forall a (votes : mapping K) T s,
  NoDup (map fst votes) -> apportion a votes T = Ok s -> NoDup (map fst s).
Proof.
  intros [m | q] votes T s Hnd Hok; simpl in Hok.
  - unfold highest_averages in Hok. destruct votes as [| [c v] votes].
    + destruct (T =? 0)%N; [injection Hok as <-; constructor | discriminate].
    + destruct (total _ =? 0)%N; injection Hok as <-;
        [apply fold_add_to_nodup | apply ha_loop_nodup]; constructor.
  - rewrite (largest_remainder_keys _ _ _ _ Hok). exact Hnd.
Qed.


End ResultKeys.


(** ** Python dicts *)

Section PyDictLemmas.
Context {V : Type}.

Lemma py_lookup_dict_set : forall k k' (v : V) d,
  py_lookup k (dict_set k' v d) = if String.eqb k k' then Some v else py_lookup k d.
Proof.
  intros k k' v d; induction d as [| [k0 v0] d IH]; simpl.
  - destruct (String.eqb k k'); reflexivity.
  - destruct (String.eqb k' k0) eqn:E1; simpl.
    + apply String.eqb_eq in E1; subst k0. destruct (String.eqb k k'); reflexivity.
    + rewrite IH. destruct (String.eqb k k0) eqn:E2; [| reflexivity].
      apply String.eqb_eq in E2; subst. rewrite String.eqb_sym, E1. reflexivity.
Qed.

Lemma py_lookup_none : forall k (d : list (string * V)), py_lookup k d = None <-> ~ In k (map fst d).
Proof.
  intros k d; induction d as [| [k' v'] d IH]; simpl; [tauto |].
  destruct (String.eqb k k') eqn:E.
  - apply String.eqb_eq in E; subst. split; [discriminate | tauto].
  - apply String.eqb_neq in E. rewrite IH. split; [intros H [H' | H']; congruence | tauto].
Qed.

Lemma py_lookup_in : forall k (v : V) d, NoDup (map fst d) -> In (k, v) d -> py_lookup k d = Some v.
Proof.
  intros k v d; induction d as [| [k' v'] d IH]; simpl; intros Hnd Hin; [contradiction |].
  inversion Hnd as [| ? ? Hk Hnd']; subst.
  destruct Hin as [E | Hin].
  - injection E as <- <-. rewrite String.eqb_refl. reflexivity.
  - destruct (String.eqb k k') eqn:E.
    + apply String.eqb_eq in E; subst. exfalso. apply Hk. apply in_map_iff. exists (k', v); auto.
    + apply IH; assumption.
Qed.

Lemma dict_set_keys_in : forall k k' (v : V) d,
  In k (map fst (dict_set k' v d)) <-> k = k' \/ In k (map fst d).
Proof.
  intros k k' v d; induction d as [| [k0 v0] d IH]; simpl; [intuition congruence |].
  destruct (String.eqb k' k0) eqn:E; simpl.
  - apply String.eqb_eq in E; subst. intuition congruence.
  - rewrite IH. tauto.
Qed.

Lemma dict_set_nodup : forall k (v : V) d, NoDup (map fst d) -> NoDup (map fst (dict_set k v d)).
Proof.
  intros k v d; induction d as [| [k0 v0] d IH]; simpl; intros Hnd.
  - constructor; [intros [] | constructor].
  - inversion Hnd as [| ? ? Hk Hnd']; subst.
    destruct (String.eqb k k0) eqn:E; simpl; constructor; auto.
    rewrite dict_set_keys_in. apply String.eqb_neq in E. intuition congruence.
Qed.

Lemma dict_set_keys_eq : forall {W : Type} k (v : V) (w : W) d1 d2,
  map fst d1 = map fst d2 -> map fst (dict_set k v d1) = map fst (dict_set k w d2).
Proof.
  intros W k v w d1; induction d1 as [| [k1 v1] d1 IH]; intros [| [k2 v2] d2] Hk; simpl in *;
    try discriminate; [reflexivity |].
  injection Hk as <- Hk. destruct (String.eqb k k1); simpl; [rewrite Hk; reflexivity |].
  rewrite (IH d2 Hk). reflexivity.
Qed.

Lemma dict_of_pairs_snoc : forall (ps : list (string * V)) k v,
  dict_of_pairs (ps ++ [(k, v)]) = dict_set k v (dict_of_pairs ps).
Proof. intros ps k v. unfold dict_of_pairs. rewrite fold_left_app. reflexivity. Qed.

Lemma dict_of_pairs_keys : forall (ps : list (string * V)) k,
  In k (map fst (dict_of_pairs ps)) <-> In k (map fst ps).
Proof.
  induction ps as [| [k0 v0] ps IH] using rev_ind; intros k; [simpl; tauto |].
  rewrite dict_of_pairs_snoc, dict_set_keys_in, IH, map_app, in_app_iff. simpl. intuition.
Qed.

Lemma dict_of_pairs_nodup : forall ps : list (string * V), NoDup (map fst (dict_of_pairs ps)).
Proof.
  induction ps as [| [k0 v0] ps IH] using rev_ind; [constructor |].
  rewrite dict_of_pairs_snoc. apply dict_set_nodup, IH.
Qed.

Lemma dict_of_pairs_lookup : forall (ps : list (string * V)) k v,
  py_lookup k (dict_of_pairs ps) = Some v <->
  exists pre post, ps = pre ++ (k, v) :: post /\ ~ In k (map fst post).
Proof.
  induction ps as [| [k0 v0] ps IH] using rev_ind; intros k v.
  - simpl. split; [discriminate |]. intros [pre [post [E _]]]. destruct pre; discriminate.
  - rewrite dict_of_pairs_snoc, py_lookup_dict_set. destruct (String.eqb k k0) eqn:E.
    + apply String.eqb_eq in E; subst k0. split.
      * intros H; injection H as <-. exists ps, []. split; [reflexivity | intros []].
      * intros [pre [post [Eq Hk]]]. destruct post as [| y post _] using rev_ind.
        -- apply app_inj_tail in Eq as [_ Eq]. injection Eq as <-. reflexivity.
        -- rewrite app_comm_cons, app_assoc in Eq. apply app_inj_tail in Eq as [_ Eq]. subst y.
           exfalso. apply Hk. rewrite map_app, in_app_iff. right; left; reflexivity.
    + apply String.eqb_neq in E. rewrite IH. split.
      * intros [pre [post [Eq Hk]]]. exists pre, (post ++ [(k0, v0)]). split.
        -- rewrite Eq, <- app_assoc. reflexivity.
        -- rewrite map_app, in_app_iff. simpl. intuition.
      * intros [pre [post [Eq Hk]]]. destruct post as [| y post _] using rev_ind.
        -- apply app_inj_tail in Eq as [_ Eq]. injection Eq as <- _. congruence.
        -- rewrite app_comm_cons, app_assoc in Eq. apply app_inj_tail in Eq as [Eq _].
           exists pre, post. split; [exact Eq |]. rewrite map_app, in_app_iff in Hk. tauto.
Qed.

Lemma dict_set_new : forall k (v : V) d, ~ In k (map fst d) -> dict_set k v d = d ++ [(k, v)].
Proof.
  intros k v d; induction d as [| [k0 v0] d IH]; simpl; intros Hk; [reflexivity |].
  destruct (String.eqb k k0) eqn:E; [apply String.eqb_eq in E; subst; tauto |].
  rewrite IH by tauto. reflexivity.
Qed.

Lemma dict_of_pairs_distinct : forall ps : list (string * V),
  NoDup (map fst ps) -> dict_of_pairs ps = ps.
Proof.
  induction ps as [| [k0 v0] ps IH] using rev_ind; intros Hnd; [reflexivity |].
  rewrite map_app in Hnd. simpl in Hnd. apply NoDup_app_remove_r in Hnd as Hnd'.
  rewrite dict_of_pairs_snoc, IH by exact Hnd'. apply dict_set_new.
  intros Hk. apply NoDup_remove_2 in Hnd. rewrite app_nil_r in Hnd. exact (Hnd Hk).
Qed.

End PyDictLemmas.

(** ** The German vote loading *)

Lemma constituency_of_setdefault : forall land wk land' wk' v st,
  constituency_of land wk (setdefault_set land' wk' v st)
  = if String.eqb land land' && String.eqb wk wk' then Some v else constituency_of land wk st.
Proof.
  intros land wk land' wk' v st. unfold constituency_of, setdefault_set.
  rewrite py_lookup_dict_set. destruct (String.eqb land land') eqn:E; simpl; [| reflexivity].
  apply String.eqb_eq in E; subst land'.
  destruct (py_lookup land st) as [d |]; rewrite py_lookup_dict_set; [reflexivity |].
  destruct (String.eqb wk wk'); reflexivity.
Qed.

Lemma load_rows_app : forall py_int names acc l1 l2,
  load_rows py_int names acc (l1 ++ l2) = (acc' <- load_rows py_int names acc l1 ;; load_rows py_int names acc' l2).
Proof.
  intros py_int names acc l1; revert acc; induction l1 as [| row l1 IH]; intros acc l2; simpl; [reflexivity |].
  destruct (load_row py_int names acc row); simpl; [apply IH | reflexivity].
Qed.


Lemma load_row_ok : forall py_int names erst zweit row acc',
  load_row py_int names (erst, zweit) row = Ok acc' ->
  exists wk land cells vals, row = wk :: land :: cells /\ mapM (cell_value py_int) cells = Ok vals /\
    acc' = (setdefault_set land wk (dict_of_pairs (combine names (every_other vals))) erst,
            setdefault_set land wk (dict_of_pairs (combine names (every_other (tl vals)))) zweit).
Proof.
  intros py_int names erst zweit [| wk [| land cells]] acc' H; simpl in H; try discriminate.
  destruct (mapM (cell_value py_int) cells) as [vals |] eqn:E; simpl in H; [| discriminate].
  injection H as <-. exists wk, land, cells, vals. auto.
Qed.

Lemma load_rows_keep : forall py_int names rows acc res land wk,
  load_rows py_int names acc rows = Ok res ->
  Forall (fun row => ~ sets_constituency land wk row) rows ->
  constituency_of land wk (fst res) = constituency_of land wk (fst acc) /\
  constituency_of land wk (snd res) = constituency_of land wk (snd acc).
Proof.
  intros py_int names rows; induction rows as [| row rows IH]; intros [erst zweit] res land wk H Hf; cbn [load_rows] in H.
  - injection H as <-. auto.
  - inversion Hf as [| ? ? Hrow Hf']; subst.
    destruct (load_row py_int names (erst, zweit) row) as [acc' |] eqn:Er; simpl in H; [| discriminate].
    destruct (load_row_ok _ _ _ _ _ _ Er) as [w [l [cells [vals [Hr [_ Ha]]]]]]. subst row acc'.
    destruct (IH _ _ _ _ H Hf') as [H1 H2]. simpl in H1, H2. simpl.
    rewrite H1, H2, !constituency_of_setdefault.
    destruct (String.eqb land l) eqn:E1; destruct (String.eqb wk w) eqn:E2; simpl; try (split; reflexivity).
    apply String.eqb_eq in E1, E2. subst. exfalso. apply Hrow. simpl. auto.
Qed.

Lemma nth_every_other : forall {A : Type} i (l : list A) d, nth i (every_other l) d = nth (2 * i) l d.
Proof.
  intros A i; induction i as [| i IH]; intros [| x [| y l]] d; try reflexivity;
    replace (2 * S i) with (S (S (2 * i))) by lia; simpl; [destruct i; reflexivity | apply IH].
Qed.

Lemma length_every_other : forall {A : Type} i (l : list A), 2 * i < List.length l -> i < List.length (every_other l).
Proof.
  intros A i; induction i as [| i IH]; intros [| x [| y l]] H; simpl in *; try lia.
  specialize (IH l). lia.
Qed.

Lemma map_fst_combine_firstn : forall {A B : Type} (l1 : list A) (l2 : list B),
  map fst (combine l1 l2) = firstn (List.length l2) l1.
Proof. intros A B l1; induction l1 as [| a l1 IH]; intros [| b l2]; simpl; try reflexivity. rewrite IH. reflexivity. Qed.

Lemma py_lookup_combine_nth : forall {V : Type} (names : list string) (xs : list V) i d,
  NoDup names -> i < List.length names -> i < List.length xs ->
  py_lookup (nth i names EmptyString) (dict_of_pairs (combine names xs)) = Some (nth i xs d).
Proof.
  intros V names xs i d Hnd Hi Hx.
  rewrite dict_of_pairs_distinct by (rewrite map_fst_combine_firstn; apply NoDup_firstn_of, Hnd).
  apply py_lookup_in.
  - rewrite map_fst_combine_firstn. apply NoDup_firstn_of, Hnd.
  - revert names xs Hnd Hi Hx. induction i as [| i IH]; intros [| n names] [| x xs] Hnd Hi Hx; simpl in *;
      try lia; [left; reflexivity |].
    right. inversion Hnd; subst. apply IH; auto; lia.
Qed.

Lemma mapM_nth : forall {A B : Type} (f : A -> result B) l l' k da db,
  mapM f l = Ok l' -> k < List.length l -> f (nth k l da) = Ok (nth k l' db).
Proof.
  intros A B f l l' k da db H. apply mapM_ok in H. revert k.
  induction H as [| x y l l' Hxy _ IH]; intros [| k] Hk; simpl in *; [lia | lia | exact Hxy | apply IH; lia].
Qed.

Lemma mapM_length : forall {A B : Type} (f : A -> result B) l l', mapM f l = Ok l' -> List.length l' = List.length l.
Proof.
  intros A B f l l' H. apply mapM_ok in H. induction H; simpl; congruence.
Qed.

Lemma load_rows_ok_iff : forall py_int names rows acc,
  (exists res, load_rows py_int names acc rows = Ok res) <->
  Forall (fun row => match row with
                     | _ :: _ :: cells => exists vals, mapM (cell_value py_int) cells = Ok vals
                     | _ => False
                     end) rows.
Proof.
  intros py_int names rows; induction rows as [| row rows IH]; intros [erst zweit]; simpl.
  - split; [constructor | eauto].
  - rewrite Forall_cons_iff. destruct row as [| wk [| land cells]]; simpl.
    + split; [intros [res H]; discriminate | tauto].
    + split; [intros [res H]; discriminate | tauto].
    + destruct (mapM (cell_value py_int) cells) as [vals |] eqn:E; simpl.
      * rewrite IH. split; [intros H; split; eauto | tauto].
      * split; [intros [res H]; discriminate | intros [[vals H] _]; discriminate].
Qed.

Lemma setdefault_shape : forall land wk v1 v2 (st1 st2 : stimmen),
  map (fun '(l, d) => (l, map fst d)) st1 = map (fun '(l, d) => (l, map fst d)) st2 ->
  map (fun '(l, d) => (l, map fst d)) (setdefault_set land wk v1 st1)
  = map (fun '(l, d) => (l, map fst d)) (setdefault_set land wk v2 st2).
Proof.
  intros land wk v1 v2 st1 st2 Hs. unfold setdefault_set.
  assert (Hl : forall st : stimmen, py_lookup land st = None \/
                 exists d, py_lookup land st = Some d /\ In (land, map fst d) (map (fun '(l, d) => (l, map fst d)) st)).
  { intros st. induction st as [| [l d] st IHs]; simpl; [left; reflexivity |].
    destruct (String.eqb land l) eqn:E; [apply String.eqb_eq in E; subst; right; exists d; auto |].
    destruct IHs as [IHs | [d' [Hd Hin]]]; [left; exact IHs | right; exists d'; auto]. }
  assert (Hinner : map fst (match py_lookup land st1 with Some d => d | None => [] end)
                   = map fst (match py_lookup land st2 with Some d => d | None => [] end)).
  { revert st2 Hs. induction st1 as [| [l1 d1] st1 IHs]; intros [| [l2 d2] st2] Hs; simpl in Hs;
      try discriminate; [reflexivity |].
    injection Hs as <- Hd Hs. simpl. destruct (String.eqb land l1); [exact Hd | apply IHs, Hs]. }
  revert st2 Hs Hinner. generalize (match py_lookup land st1 with Some d => d | None => [] end) as i1.
  intros i1 st2. generalize (match py_lookup land st2 with Some d => d | None => [] end) as i2.
  intros i2 Hs Hi. clear Hl.
  revert st2 Hs. induction st1 as [| [l1 d1] st1 IHs]; intros [| [l2 d2] st2] Hs; simpl in Hs;
    try discriminate; simpl.
  - f_equal. f_equal. apply dict_set_keys_eq, Hi.
  - injection Hs as <- Hd Hs. destruct (String.eqb land l1); simpl.
    + f_equal; [f_equal; apply dict_set_keys_eq, Hi | exact Hs].
    + f_equal; [f_equal; exact Hd | apply IHs, Hs].
Qed.

Lemma py_lookup_some_in : forall {V : Type} k (d : list (string * V)) v, py_lookup k d = Some v -> In (k, v) d.
Proof.
  intros V k d v; induction d as [| [k' v'] d IH]; simpl; [discriminate |].
  destruct (String.eqb k k') eqn:E; [apply String.eqb_eq in E; subst; intros H; injection H as ->; left; reflexivity |].
  intros H; right; apply IH, H.
Qed.

Lemma dict_set_forall : forall {V : Type} (P : string * V -> Prop) k v d,
  Forall P d -> P (k, v) -> Forall P (dict_set k v d).
Proof.
  intros V P k v d; induction d as [| [k' v'] d IH]; intros Hd Hp; simpl; [constructor; auto |].
  inversion Hd as [| ? ? Hx Hd']; subst.
  destruct (String.eqb k k') eqn:E; [apply String.eqb_eq in E; subst; constructor; auto | constructor; auto].
Qed.


Lemma setdefault_wf : forall land wk v st, stimmen_wf st -> stimmen_wf (setdefault_set land wk v st).
Proof.
  intros land wk v st [Hnd Hall]. unfold setdefault_set. split.
  - apply dict_set_nodup, Hnd.
  - apply dict_set_forall; [exact Hall |]. apply dict_set_nodup.
    destruct (py_lookup land st) as [d |] eqn:E; [| constructor].
    apply py_lookup_some_in in E. rewrite Forall_forall in Hall. exact (Hall _ E).
Qed.


Lemma load_rows_invariants : forall py_int names rows acc res,
  load_rows py_int names acc rows = Ok res ->
  stimmen_wf (fst acc) -> stimmen_wf (snd acc) -> stimmen_shape (fst acc) = stimmen_shape (snd acc) ->
  stimmen_wf (fst res) /\ stimmen_wf (snd res) /\ stimmen_shape (fst res) = stimmen_shape (snd res) /\
  forall land wk, constituency_of land wk (fst res) <> None <->
    constituency_of land wk (fst acc) <> None \/ exists cells, In (wk :: land :: cells) rows.
Proof.
  intros py_int names rows; induction rows as [| row rows IH]; intros [erst zweit] res H Hw1 Hw2 Hs;
    cbn [load_rows] in H.
  - injection H as <-. split; [| split; [| split]]; auto. intros land wk. simpl. split; [auto | intros [Hc | [cells []]]; exact Hc].
  - destruct (load_row py_int names (erst, zweit) row) as [acc' |] eqn:Er; simpl in H; [| discriminate].
    destruct (load_row_ok _ _ _ _ _ _ Er) as [w [l [cells [vals [Hr [_ Ha]]]]]]. subst row acc'.
    destruct (IH _ _ H) as [H1 [H2 [H3 H4]]]; simpl.
    + apply setdefault_wf, Hw1.
    + apply setdefault_wf, Hw2.
    + apply setdefault_shape, Hs.
    + split; [exact H1 | split; [exact H2 | split; [exact H3 |]]].
      intros land wk. rewrite H4. simpl. rewrite constituency_of_setdefault.
      destruct (String.eqb land l) eqn:E1; destruct (String.eqb wk w) eqn:E2; simpl.
      * apply String.eqb_eq in E1, E2. subst.
        split; intros _; [right; exists cells; left; reflexivity | left; discriminate].
      * split; [intros [Hc | [cs Hin]]; [left; exact Hc | right; exists cs; right; exact Hin] |].
        intros [Hc | [cs [Heq | Hin]]]; [left; exact Hc | | right; exists cs; exact Hin].
        injection Heq as -> _ _. rewrite String.eqb_refl in E2. discriminate.
      * split; [intros [Hc | [cs Hin]]; [left; exact Hc | right; exists cs; right; exact Hin] |].
        intros [Hc | [cs [Heq | Hin]]]; [left; exact Hc | | right; exists cs; exact Hin].
        injection Heq as _ -> _. rewrite String.eqb_refl in E1. discriminate.
      * split; [intros [Hc | [cs Hin]]; [left; exact Hc | right; exists cs; right; exact Hin] |].
        intros [Hc | [cs [Heq | Hin]]]; [left; exact Hc | | right; exists cs; exact Hin].
        injection Heq as _ -> _. rewrite String.eqb_refl in E1. discriminate.
Qed.

Lemma length_every_other_le : forall {A : Type} i (l : list A),
  List.length l <= 2 * i -> List.length (every_other l) <= i.
Proof.
  intros A i; induction i as [| i IH]; intros [| x [| y l]] H; simpl in *; try lia.
  specialize (IH l). lia.
Qed.

Lemma nth_not_in_firstn : forall (names : list string) k i,
  NoDup names -> k <= i -> i < List.length names -> ~ In (nth i names EmptyString) (firstn k names).
Proof.
  intros names; induction names as [| n names IH]; intros k i Hnd Hk Hi; simpl in Hi; [lia |].
  destruct k as [| k]; [intros [] |]. destruct i as [| i]; [lia |].
  inversion Hnd as [| ? ? Hn Hnd']; subst. simpl. intros [Heq | Hin].
  - apply Hn. rewrite Heq. apply nth_In. lia.
  - apply (IH k i Hnd'); [lia | lia | exact Hin].
Qed.

Lemma py_lookup_combine_short : forall {V : Type} (names : list string) (xs : list V) i,
  NoDup names -> List.length xs <= i -> i < List.length names ->
  py_lookup (nth i names EmptyString) (dict_of_pairs (combine names xs)) = None.
Proof.
  intros V names xs i Hnd Hx Hi. apply py_lookup_none. rewrite dict_of_pairs_keys, map_fst_combine_firstn.
  apply nth_not_in_firstn; assumption.
Qed.

(** ** The Slovak vote loading *)

Lemma py_split_cons : forall sep s, exists p ps, py_split sep s = p :: ps.
Proof.
  intros sep s; induction s as [| ch rest [p [ps IH]]]; simpl; [eexists _, _; reflexivity |].
  rewrite IH. destruct (Ascii.eqb ch sep); eexists _, _; reflexivity.
Qed.

Lemma string_concat_cons : forall sep p ps,
  String.concat sep (p :: ps) = match ps with [] => p | _ => String.append p (String.append sep (String.concat sep ps)) end.
Proof. intros sep p [| q ps]; reflexivity. Qed.

Lemma py_split_parts : forall sep s,
  String.concat (String sep EmptyString) (py_split sep s) = s /\
  List.length (py_split sep s) = S (count_char sep s) /\
  Forall (fun p => count_char sep p = O) (py_split sep s).
Proof.
  intros sep s; induction s as [| ch rest [IHc [IHl IHf]]]; simpl; [split; [| split]; auto |].
  destruct (py_split_cons sep rest) as [p [ps Hp]]. rewrite Hp in *.
  destruct (Ascii.eqb ch sep) eqn:E.
  - apply Ascii.eqb_eq in E. subst ch. split; [| split].
    + rewrite <- IHc. destruct ps; reflexivity.
    + cbn [count_char List.length] in *. lia.
    + constructor; [reflexivity | exact IHf].
  - split; [| split].
    + rewrite <- IHc. destruct ps; reflexivity.
    + cbn [count_char List.length] in *. exact IHl.
    + inversion IHf as [| ? ? Hp0 Hps]; subst. constructor; [| exact Hps].
      cbn [count_char]. rewrite E. exact Hp0.
Qed.

(** The width of [zip( *rows)]: the length of the shortest row. *)
Lemma zip_width_spec : forall (rs : list (list string)) m,
  let w := fold_left (fun m row => Nat.min m (List.length row)) rs m in
  w <= m /\ Forall (fun row => w <= List.length row) rs /\ (w = m \/ Exists (fun row => List.length row = w) rs).
Proof.
  intros rs; induction rs as [| r rs IH]; intros m; simpl; [split; [| split]; auto |].
  destruct (IH (Nat.min m (List.length r))) as [H1 [H2 H3]].
  split; [lia | split; [constructor; [lia | exact H2] |]].
  destruct H3 as [H3 | H3]; [| right; right; exact H3].
  destruct (Nat.le_ge_cases m (List.length r)).
  - left. rewrite H3. lia.
  - right. left. rewrite H3. lia.
Qed.

Lemma map_seq_four : forall {A : Type} (f : nat -> A) w a b c d,
  map f (seq 0 w) = [a; b; c; d] <-> w = 4 /\ a = f 0 /\ b = f 1 /\ c = f 2 /\ d = f 3.
Proof.
  intros A f w a b c d. split.
  - intros H. assert (Hw : List.length (map f (seq 0 w)) = 4) by (rewrite H; reflexivity).
    rewrite length_map, length_seq in Hw. subst w. simpl in H. injection H as -> -> -> ->. auto.
  - intros [-> [-> [-> [-> ->]]]]. reflexivity.
Qed.

(** ** Merging, plurality and the first round *)

Section RoundLemmas.
Context {K : Type} `{EqbKey K}.

Lemma total_add_entries : forall l (acc : mapping K),
  total (add_entries l acc) = (total acc + N_sum (map snd l))%N.
Proof.
  unfold add_entries. intros l; induction l as [| [k v] l IH]; intros acc; simpl; [lia |].
  rewrite IH, total_add_to. lia.
Qed.

Lemma merged_total_sum : forall regions : list (string * mapping K),
  total (merged_distributions regions) = N_sum (map (fun '(_, m) => total m) regions).
Proof.
  intros regions. rewrite merged_as_flat, total_add_entries. simpl.
  induction regions as [| [r m] regions IH]; simpl; [reflexivity |].
  rewrite map_app, N_sum_app, IH. reflexivity.
Qed.

Lemma get_merged_fsum : forall (c : K) regions,
  get c (merged_distributions regions) = fsum c (List.concat (map snd regions)).
Proof.
  intros c regions. unfold get. rewrite merged_lookup. unfold flat_total.
  destruct (occurs c _) eqn:E; [reflexivity | symmetry; apply fsum_not_occurs, E].
Qed.

Lemma forall_le_of_split : forall (pre post : mapping K) w (x : N),
  Forall (fun e => (snd e < x)%N) pre -> Forall (fun e => (snd e <= x)%N) post ->
  Forall (fun e => (snd e <= x)%N) (pre ++ (w, x) :: post).
Proof.
  intros pre post w x Hpre Hpost. apply Forall_app. split.
  - refine (Forall_impl _ _ Hpre). intros e; lia.
  - constructor; [simpl; lia | exact Hpost].
Qed.

(** The head of the descending sort is the first entry of maximal value. *)
Lemma sort_desc_head : forall (l : mapping K) w x,
  hd_error (sort_desc snd l) = Some (w, x) <->
  exists pre post, l = pre ++ (w, x) :: post /\
    Forall (fun e => (snd e < x)%N) pre /\ Forall (fun e => (snd e <= x)%N) post.
Proof.
  induction l as [| a l IH]; intros w x.
  - simpl. split; [discriminate |]. intros [pre [post [E _]]]. destruct pre; discriminate.
  - cbn [sort_desc]. destruct (sort_desc snd l) as [| h s] eqn:Es.
    + assert (Hl : l = []).
      { apply Permutation_nil. rewrite <- Es. apply sort_desc_perm. }
      subst l. simpl. split.
      * intros Ha; injection Ha as ->. exists [], []. auto.
      * intros [[| p pre] [post [E _]]]; [injection E as -> _; reflexivity |].
        injection E as _ E. destruct pre; discriminate.
    + assert (Hh : forall e, In e l -> (snd e <= snd h)%N).
      { destruct h as [hw hx]. destruct (proj1 (IH hw hx) eq_refl) as [pre [post [El [Hpre Hpost]]]].
        intros e He. pose proof (forall_le_of_split _ _ hw _ Hpre Hpost) as Hall.
        rewrite <- El, Forall_forall in Hall. exact (Hall e He). }
      assert (Hin : In h l).
      { apply (Permutation_in _ (sort_desc_perm snd l)). rewrite Es. left. reflexivity. }
      cbn [insert_desc]. destruct (snd a <? snd h)%N eqn:Ea; cbn [hd_error].
      * apply N.ltb_lt in Ea. split.
        -- intros Hw. destruct h as [hw hx]. injection Hw as <- <-.
           destruct (proj1 (IH hw hx) eq_refl) as [pre [post [El [Hpre Hpost]]]].
           exists (a :: pre), post. rewrite El. split; [reflexivity |]. split; [constructor; [exact Ea | exact Hpre] | exact Hpost].
        -- intros [[| p pre] [post [E [Hpre Hpost]]]].
           ++ injection E as E1 E2. rewrite <- E2 in Hpost. subst a. rewrite Forall_forall in Hpost. specialize (Hpost h Hin). simpl in Ea. lia.
           ++ injection E as <- El. inversion Hpre as [| ? ? Hp Hpre'].
              apply IH. exists pre, post. auto.
      * apply N.ltb_ge in Ea. split.
        -- intros Hw. injection Hw as ->. exists [], l. split; [reflexivity |]. split; [constructor |].
           apply Forall_forall. intros e He. specialize (Hh e He). simpl in Ea. lia.
        -- intros [[| p pre] [post [E [Hpre Hpost]]]].
           ++ injection E as -> _. reflexivity.
           ++ injection E as <- El. inversion Hpre as [| ? ? Hp _]; subst. simpl in Hp.
              assert (Hhx : (x <= snd h)%N).
              { apply (Hh (w, x)). apply in_or_app. right. left. reflexivity. }
              lia.
Qed.

Lemma plurality_one : forall (votes : mapping K),
  plurality votes 1 = match hd_error (sort_desc snd votes) with Some (w, _) => [w] | None => [] end.
Proof. intros votes. unfold plurality. destruct (sort_desc snd votes) as [| [w x] s]; reflexivity. Qed.

Lemma sort_desc_nil : forall l : mapping K, sort_desc snd l = [] <-> l = [].
Proof.
  intros l. split; [| intros ->; reflexivity].
  intros E. apply Permutation_nil. rewrite <- E. apply sort_desc_perm.
Qed.

Lemma selection_one : forall (sel : list K),
  List.length sel <= 1 ->
  forall c, get c (selection_to_distribution sel) = if mem c sel then 1%N else 0%N.
Proof.
  intros [| w [| w' sel]] Hl c; simpl in Hl; try lia; unfold selection_to_distribution; simpl;
    unfold get, mem; simpl; [reflexivity |].
  destruct (key_eqb c w); reflexivity.
Qed.

Lemma plurality_one_length : forall (votes : mapping K), List.length (plurality votes 1) <= 1.
Proof. intros votes. rewrite plurality_one. destruct (hd_error _) as [[w x] |]; simpl; lia. Qed.

Lemma selection_total : forall (sel : list K),
  List.length sel <= 1 -> total (selection_to_distribution sel) = N.of_nat (List.length sel).
Proof. intros [| w [| w' sel]] Hl; simpl in Hl; try lia; reflexivity. Qed.

Lemma selection_nodup : forall (sel : list K),
  List.length sel <= 1 -> NoDup (map fst (selection_to_distribution sel)).
Proof. intros [| w [| w' sel]] Hl; simpl in Hl; try lia; repeat constructor; simpl; tauto. Qed.

Lemma N_sum_indicator_filter : forall {A : Type} (f : A -> bool) l,
  N_sum (map (fun a => if f a then 1%N else 0%N) l) = N.of_nat (List.length (filter f l)).
Proof.
  intros A f l; induction l as [| a l IH]; cbn [map N_sum filter]; [reflexivity |].
  rewrite IH. destruct (f a); cbn [List.length]; [rewrite Nat2N.inj_succ |]; lia.
Qed.

Lemma plurality_one_nil : forall votes : mapping K,
  List.length (plurality votes 1) = match votes with [] => O | _ => 1 end.
Proof.
  intros [| e votes]; [reflexivity |]. rewrite plurality_one.
  destruct (sort_desc snd (e :: votes)) as [| [w x] s] eqn:E.
  - apply (proj1 (sort_desc_nil _)) in E. discriminate.
  - reflexivity.
Qed.

End RoundLemmas.

Lemma round1_state : forall wks : list (string * mapping candidate),
  let won := merged_distributions
               (map (fun '(wk, v) => (wk, selection_to_distribution (plurality v 1))) wks) in
  total won = N.of_nat (List.length (filter (fun '(_, v) => match v with [] => false | _ => true end) wks)) /\
  forall c, get c won = N.of_nat (List.length (filter (fun '(_, v) => mem c (plurality v 1)) wks)).
Proof.
  intros wks won. subst won. split.
  - rewrite merged_total_sum. induction wks as [| [wk v] wks IH]; [reflexivity |].
    cbn [map N_sum filter]. rewrite IH, selection_total by apply plurality_one_length.
    rewrite plurality_one_nil. destruct v; cbn [List.length]; [reflexivity |]. rewrite Nat2N.inj_succ. lia.
  - intros c. rewrite get_merged_fsum, fsum_nodup_regions.
    + induction wks as [| [wk v] wks IH]; [reflexivity |].
      cbn [map N_sum filter]. rewrite IH, selection_one by apply plurality_one_length.
      destruct (mem c (plurality v 1)); cbn [List.length]; [rewrite Nat2N.inj_succ |]; lia.
    + induction wks as [| [wk v] wks IH]; constructor; [| exact IH].
      apply selection_nodup, plurality_one_length.
Qed.

Lemma mapM_ok_iff : forall {A B : Type} (f : A -> result B) l,
  (exists l', mapM f l = Ok l') <-> Forall (fun x => exists y, f x = Ok y) l.
Proof.
  intros A B f l; induction l as [| a l IH]; simpl.
  - split; [constructor | eauto].
  - rewrite Forall_cons_iff, <- IH. destruct (f a) as [b |] eqn:Ea; simpl.
    + destruct (mapM f l) as [l' |]; simpl.
      * split; [intros _; eauto | eauto].
      * split; [intros [l' H]; discriminate | intros [_ [l' H]]; discriminate].
    + split; [intros [l' H]; discriminate | intros [[y H] _]; discriminate].
Qed.

Lemma filter_mem_nonempty : forall th (v prev : mapping candidate),
  filter (fun '(c, _) => mem c (select th v prev)) v <> [] <->
  exists c x, In (c, x) v /\ admits th v prev c = true.
Proof.
  intros th v prev. split.
  - intros Hne. destruct (filter _ v) as [| [c x] rest] eqn:E; [congruence |].
    assert (Hin : In (c, x) (filter (fun '(c, _) => mem c (select th v prev)) v)) by (rewrite E; left; reflexivity).
    apply filter_In in Hin as [Hin Hm]. apply mem_in, select_in in Hm as [x' [Hin' Ha]].
    exists c, x. auto.
  - intros [c [x [Hin Ha]]] E.
    assert (Hf : In (c, x) (filter (fun '(c, _) => mem c (select th v prev)) v)).
    { apply filter_In. split; [exact Hin |]. apply mem_in, select_in. eauto. }
    rewrite E in Hf. exact Hf.
Qed.

(** ** The divisor methods are monotonic in the seat total *)

Section Monotone.
Context {K : Type} `{EqbKey K}.






End Monotone.

(** * Claims *)

Local Open Scope string_scope.


(** C5: the Slovak 2020 evaluator (Hagenbach-Bischoff quota rounded, the
    coalition-bracketed thresholds, 150 seats) reproduces the recorded
    result, OĽANO with exactly 53 seats. *)
Theorem sk_2020_olano_53 :
  evaluate sk_evaluator sk_votes [] 150 = Ok sk_result /\
  get (PoliticalParty "OĽANO") sk_result = 53%N.
Proof. split; vm_compute; reflexivity. Qed.

(** C8: Sainte-Laguë over the 16 state populations and 598 seats gives the
    recorded seat counts, which sum to 598, and each state's seats are within
    one seat of its exact population share [598 * p / P]. *)
Theorem land_seats_sainte_lague :
  apportion prop_eval land_inhab 598 = Ok land_seats /\
  total land_seats = 598%N /\
  Forall (fun '(r, p) =>
            (get r land_seats * total land_inhab <= 598 * p + total land_inhab)%N /\
            (598 * p <= get r land_seats * total land_inhab + total land_inhab)%N) land_inhab.
Proof.
  split; [vm_compute; reflexivity |]. split; [vm_compute; reflexivity |].
  apply Forall_forall. intros [r p] Hin.
  assert (Hb : forallb (fun '(r, p) =>
            (get r land_seats * total land_inhab <=? 598 * p + total land_inhab)%N &&
            (598 * p <=? get r land_seats * total land_inhab + total land_inhab)%N) land_inhab = true)
    by (vm_compute; reflexivity).
  rewrite forallb_forall in Hb. specialize (Hb (r, p) Hin). simpl in Hb.
  apply andb_true_iff in Hb as [H1 H2]. apply N.leb_le in H1, H2. split; assumption.
Qed.

(** C6: under [CoalitionMemberBracketer], a two-member coalition whose
    bracket is [RelativeThreshold(7/100, accept_equal=True)] is admitted when
    its votes are exactly 7% of the total, and excluded when they are one
    vote below 7% of the total. *)
Theorem coalition_bracket_seven_percent :
  forall brackets default (votes prev : mapping candidate) name m1 m2 v,
  find_bracket brackets 2 = Some (RelativeThreshold 7 100 true) ->
  NoDup (map fst votes) ->
  In (Coalition name [m1; m2], v) votes ->
  ((100 * v = 7 * total votes)%N ->
     In (Coalition name [m1; m2]) (select (CoalitionMemberBracketer brackets default) votes prev)) /\
  ((100 * (v + 1) = 7 * total votes)%N ->
     ~ In (Coalition name [m1; m2]) (select (CoalitionMemberBracketer brackets default) votes prev)).
Proof.
  intros brackets default votes prev name m1 m2 v Hbr Hnd Hin.
  assert (Hadm : admits (CoalitionMemberBracketer brackets default) votes prev (Coalition name [m1; m2])
                 = (7 * total votes <=? 100 * v)%N).
  { rewrite admits_bracketer. simpl member_count. rewrite Hbr. simpl.
    rewrite (get_in_nodup _ _ _ Hnd Hin). reflexivity. }
  split.
  - intros Heq. apply select_in. exists v. split; [exact Hin |].
    rewrite Hadm. apply N.leb_le. lia.
  - intros Heq Hsel. apply select_in in Hsel as [v' [Hin' Ha]].
    rewrite Hadm in Ha. apply N.leb_le in Ha. lia.
Qed.

(** A witness: the Slovak brackets, a two-member coalition with exactly 7 of
    100 votes is admitted. *)
Lemma coalition_bracket_seven_percent_witness :
  In (Coalition "P-Q" [PoliticalParty "P"; PoliticalParty "Q"])
     (select sk_preselector [(PoliticalParty "X", 93%N); (Coalition "P-Q" [PoliticalParty "P"; PoliticalParty "Q"], 7%N)] []).
Proof.
  apply (proj1 (coalition_bracket_seven_percent
                  [(1, standard_elim); (2, mem_2_3_elim); (3, mem_2_3_elim)] mem_4plus_elim
                  [(PoliticalParty "X", 93%N); (Coalition "P-Q" [PoliticalParty "P"; PoliticalParty "Q"], 7%N)] []
                  "P-Q" (PoliticalParty "P") (PoliticalParty "Q") 7%N
                  eq_refl
                  ltac:(simpl; constructor; [intros [H | []]; discriminate H | constructor; [intros [] | constructor]])
                  ltac:(simpl; right; left; reflexivity))).
  vm_compute. reflexivity.
Defined.

(** C7 (as stated, refuted): a candidate excluded by the predicate does not
    appear in the result with zero seats; in the Slovak evaluation the
    PS-SPOLU coalition, below its 7% bracket, is absent from the result (as in
    the notebook's recorded output, which lists six parties). *)
Lemma conditioned_zero_counterexample :
  ~ (forall th e (votes prev : mapping candidate) T res c,
       evaluate (Conditioned th e) votes prev T = Ok res ->
       In c (map fst votes) -> ~ In c (select th votes prev) ->
       lookup c res = Some 0%N).
Proof.
  intros Hall.
  specialize (Hall sk_preselector (Apportion (LargestRemainder hagenbach_bischoff_rounded))
                   sk_votes [] 150%N sk_result ps_spolu).
  assert (Hres : evaluate (Conditioned sk_preselector (Apportion (LargestRemainder hagenbach_bischoff_rounded)))
                   sk_votes [] 150%N = Ok sk_result) by (vm_compute; reflexivity).
  assert (Hc : In ps_spolu (map fst sk_votes)) by (simpl; tauto).
  assert (Hsel : ~ In ps_spolu (select sk_preselector sk_votes [])).
  { vm_compute. intros H. repeat destruct H as [H | H]; try discriminate H; exact H. }
  specialize (Hall Hres Hc Hsel). vm_compute in Hall. discriminate Hall.
Qed.

(** C7 (amended): every candidate not admitted by the predicate evaluator is
    absent from the result of [Conditioned(predicate, inner)]; only the
    inner evaluator's result over the admitted candidates is returned. *)
Theorem conditioned_excluded_absent :
  forall th e (votes prev : mapping candidate) T res c,
  evaluate (Conditioned th e) votes prev T = Ok res ->
  ~ In c (select th votes prev) ->
  lookup c res = None.
Proof.
  intros th e votes prev T res c Hok Hsel. apply lookup_none_iff. intros Hin.
  simpl in Hok. pose proof (evaluate_keys _ _ _ _ _ _ Hok Hin) as Hk.
  apply in_map_iff in Hk as [[c' v] [Heq Hf]]. simpl in Heq. subst c'.
  apply filter_In in Hf as [_ Hm]. apply mem_in in Hm. contradiction.
Qed.

(** A witness: the Slovak evaluation and the PS-SPOLU coalition. *)
Lemma conditioned_excluded_absent_witness :
  lookup ps_spolu sk_result = None.
Proof.
  apply (conditioned_excluded_absent sk_preselector (Apportion (LargestRemainder hagenbach_bischoff_rounded))
           sk_votes [] 150%N sk_result ps_spolu).
  - vm_compute. reflexivity.
  - vm_compute. intros H. repeat destruct H as [H | H]; try discriminate H; exact H.
Defined.

(** C9: [MergedDistributions] sums per candidate over all regions, which
    equals flattening all regions and summing directly; it is associative
    (merging merged groups of regions equals merging all regions, in
    particular [{A,B}] then [C] equals [A] then [{B,C}]); it does not depend
    on the order of the regions; and a candidate absent from a region counts
    as zero there. *)
Theorem merged_distributions_assoc_comm :
  forall (K : Type) (EK : EqbKey K),
  (forall (regions : list (string * mapping K)) c,
     lookup c (merged_distributions regions) = flat_total c (List.concat (map snd regions))) /\
  (forall (groups : list (string * list (string * mapping K))) c,
     lookup c (merged_distributions (map (fun '(g, rs) => (g, merged_distributions rs)) groups))
     = lookup c (merged_distributions (List.concat (map snd groups)))) /\
  (forall (ra rb rc rab rbc : string) (A B C : mapping K) c,
     lookup c (merged_distributions [(rab, merged_distributions [(ra, A); (rb, B)]); (rc, C)])
     = lookup c (merged_distributions [(ra, A); (rbc, merged_distributions [(rb, B); (rc, C)])])) /\
  (forall (r1 r2 : list (string * mapping K)) c, Permutation r1 r2 ->
     lookup c (merged_distributions r1) = lookup c (merged_distributions r2)) /\
  (forall (regions : list (string * mapping K)) c,
     Forall (fun '(_, m) => NoDup (map fst m)) regions ->
     get c (merged_distributions regions) = N_sum (map (fun '(_, m) => get c m) regions)).
Proof.
  intros K EK. split; [| split; [| split; [| split]]].
  - intros regions c. apply merged_lookup.
  - intros groups c. rewrite !merged_lookup. unfold flat_total.
    destruct (merged_groups c groups) as [Ho Hf]. rewrite Ho, Hf. reflexivity.
  - intros ra rb rc rab rbc A B C c. rewrite !merged_lookup. unfold flat_total. simpl.
    rewrite !app_nil_r, !occurs_app, !fsum_app, !merged_occurs, !merged_fsum. simpl.
    rewrite !app_nil_r, !occurs_app, !fsum_app.
    destruct (occurs c A), (occurs c B), (occurs c C); simpl; try reflexivity; f_equal; lia.
  - intros r1 r2 c P. rewrite !merged_lookup. unfold flat_total.
    rewrite (occurs_perm c _ _ (concat_perm _ _ P)), (fsum_perm c _ _ (concat_perm _ _ P)).
    reflexivity.
  - intros regions c Hall. unfold get at 1. rewrite merged_lookup. unfold flat_total.
    rewrite <- fsum_nodup_regions by exact Hall.
    destruct (occurs c _) eqn:E; [reflexivity | symmetry; apply fsum_not_occurs, E].
Qed.





(** * Further properties of the notebook code *)

(** [dict(zip(party_names, values))] (X1): the keys are distinct and are
    exactly the keys of the pairs; a key maps to the value of its last pair;
    pairs with distinct keys are kept as they are, in order. *)
Theorem dict_of_pairs_spec : forall {V : Type} (ps : list (string * V)),
  NoDup (map fst (dict_of_pairs ps)) /\
  (forall k, In k (map fst (dict_of_pairs ps)) <-> In k (map fst ps)) /\
  (forall k v, py_lookup k (dict_of_pairs ps) = Some v <->
               exists pre post, ps = (pre ++ (k, v) :: post)%list /\ ~ In k (map fst post)) /\
  (NoDup (map fst ps) -> dict_of_pairs ps = ps).
Proof.
  intros V ps. split; [apply dict_of_pairs_nodup | split; [| split]].
  - intros k. apply dict_of_pairs_keys.
  - intros k v. apply dict_of_pairs_lookup.
  - apply dict_of_pairs_distinct.
Qed.

(** The loading loop over [rows[2:]] (X2): after a successful load, the
    entry [stimmen[land][wahlkreis][party]] of a constituency row that no
    later row overwrites holds the parsed value of the party's cell: the
    first vote in column [2 + 2 i] for [erststimmen], the second in column
    [3 + 2 i] for [zweitstimmen], where [party] is the [i]-th party name
    of the header. *)
Theorem load_stimmen_cell : forall py_int header r1 pre wk land cells post erst zweit i,
  load_stimmen py_int (header :: r1 :: (pre ++ (wk :: land :: cells) :: post)%list) = Ok (erst, zweit) ->
  Forall (fun row => ~ sets_constituency land wk row) post ->
  NoDup (party_names_of header) ->
  i < List.length (party_names_of header) ->
  2 * i + 1 < List.length cells ->
  exists first second,
    cell_value py_int (nth (2 * i) cells EmptyString) = Ok first /\
    cell_value py_int (nth (2 * i + 1) cells EmptyString) = Ok second /\
    stimmen_get land wk (nth i (party_names_of header) EmptyString) erst = Some first /\
    stimmen_get land wk (nth i (party_names_of header) EmptyString) zweit = Some second.
Proof.
  intros py_int header r1 pre wk land cells post erst zweit i H Hpost Hnd Hi Hc.
  unfold load_stimmen in H. cbn [skipn] in H. rewrite load_rows_app in H.
  destruct (load_rows py_int (party_names_of header) ([], []) pre) as [[e0 z0] |]; cbn [bind] in H; [| discriminate].
  cbn [load_rows] in H.
  destruct (load_row py_int (party_names_of header) (e0, z0) (wk :: land :: cells)) as [acc' |] eqn:Er;
    cbn [bind] in H; [| discriminate].
  destruct (load_row_ok _ _ _ _ _ _ Er) as [w [l [cs [vals [Hr [Hv Ha]]]]]].
  injection Hr as <- <- <-. subst acc'.
  destruct (load_rows_keep _ _ _ _ _ _ _ H Hpost) as [H1 H2]. simpl in H1, H2.
  rewrite constituency_of_setdefault, !String.eqb_refl in H1, H2. simpl in H1, H2.
  assert (Hlen : List.length vals = List.length cells) by (eapply mapM_length; exact Hv).
  exists (nth (2 * i) vals 0%Z), (nth (2 * i + 1) vals 0%Z).
  split; [apply mapM_nth with (l := cells); [exact Hv | lia] |].
  split; [apply mapM_nth with (l := cells); [exact Hv | lia] |].
  unfold stimmen_get. rewrite H1, H2. split.
  - rewrite py_lookup_combine_nth with (d := 0%Z) by (try exact Hnd; try exact Hi; apply length_every_other; lia).
    rewrite nth_every_other. reflexivity.
  - rewrite py_lookup_combine_nth with (d := 0%Z)
      by (try exact Hnd; try exact Hi; apply length_every_other; destruct vals; simpl in *; lia).
    rewrite nth_every_other. destruct vals as [| v0 vals]; simpl in Hlen; [lia |]. cbn [tl].
    replace (2 * i + 1) with (S (2 * i)) by lia. reflexivity.
Qed.

(** The loaded dictionaries (X3): after a successful load the states are
    distinct keys, the constituencies of each state are distinct keys,
    [erststimmen] and [zweitstimmen] have the same states and
    constituencies in the same order, and [stimmen[land][wahlkreis]] exists
    exactly when some row of [rows[2:]] starts with [wahlkreis, land]. *)
Theorem load_stimmen_shape : forall py_int rows erst zweit,
  load_stimmen py_int rows = Ok (erst, zweit) ->
  stimmen_wf erst /\ stimmen_wf zweit /\ stimmen_shape erst = stimmen_shape zweit /\
  forall land wk, constituency_of land wk erst <> None <->
                  exists cells, In (wk :: land :: cells) (skipn 2 rows).
Proof.
  intros py_int [| header rows] erst zweit H; [discriminate |].
  unfold load_stimmen in H.
  assert (Hw : stimmen_wf []) by (split; constructor).
  destruct (load_rows_invariants _ _ _ _ _ H Hw Hw eq_refl) as [H1 [H2 [H3 H4]]].
  split; [exact H1 | split; [exact H2 | split; [exact H3 |]]].
  intros land wk. rewrite (H4 land wk). simpl. split; [intros [Hc | Hex]; [contradiction | exact Hex] | auto].
Qed.

(** When the load fails (X4): [load_stimmen] succeeds exactly when the
    file has a header and every row after the first two has at least the
    two name cells and only cells that are empty or accepted by [int]. *)
Theorem load_stimmen_ok_iff : forall py_int rows,
  (exists res, load_stimmen py_int rows = Ok res) <->
  rows <> [] /\
  Forall (fun row => match row with
                     | _ :: _ :: cells => Forall (fun x => exists z, cell_value py_int x = Ok z) cells
                     | _ => False
                     end) (skipn 2 rows).
Proof.
  intros py_int [| header rows].
  - simpl. split; [intros [res H]; discriminate | intros [H _]; congruence].
  - unfold load_stimmen. rewrite load_rows_ok_iff. split.
    + intros Hf. split; [discriminate |]. refine (Forall_impl _ _ Hf).
      intros [| a [| b cells]]; auto. intros [vals Hv]. apply mapM_ok in Hv.
      induction Hv; constructor; eauto.
    + intros [_ Hf]. refine (Forall_impl _ _ Hf).
      intros [| a [| b cells]]; auto. intros Hc. induction Hc as [| x cells [z Hz] _ [vals IH]]; [exists []; reflexivity |].
      exists (z :: vals). simpl. rewrite Hz. simpl. rewrite IH. reflexivity.
Qed.



Lemma load_stimmen_cell_witness :
  load_stimmen decimal_int sample_rows = Ok sample_loaded /\
  exists first second,
    cell_value decimal_int "9" = Ok first /\ cell_value decimal_int "1" = Ok second /\
    stimmen_get "L1" "W2" "B" (fst sample_loaded) = Some first /\
    stimmen_get "L1" "W2" "B" (snd sample_loaded) = Some second.
Proof.
  split; [vm_compute; reflexivity |].
  apply (load_stimmen_cell decimal_int (nth 0 sample_rows []) (nth 1 sample_rows [])
           [nth 2 sample_rows []] "W2" "L1" ["7"; "8"; "9"; "1"] [] (fst sample_loaded) (snd sample_loaded) 1).
  - vm_compute. reflexivity.
  - constructor.
  - vm_compute. repeat constructor; simpl; intuition discriminate.
  - vm_compute. lia.
  - simpl. lia.
Defined.

Lemma load_stimmen_shape_witness :
  load_stimmen decimal_int sample_rows = Ok sample_loaded /\
  (stimmen_wf (fst sample_loaded) /\ stimmen_wf (snd sample_loaded) /\
   stimmen_shape (fst sample_loaded) = stimmen_shape (snd sample_loaded) /\
   forall land wk, constituency_of land wk (fst sample_loaded) <> None <->
                   exists cells, In (wk :: land :: cells) (skipn 2 sample_rows)).
Proof.
  split; [vm_compute; reflexivity |].
  apply (load_stimmen_shape decimal_int sample_rows). vm_compute. reflexivity.
Defined.

(** Rows shorter than the header (X13): when the constituency row that no
    later row overwrites has no cell for the [i]-th party ([zip] stops at
    the shorter sequence), [stimmen[land][wahlkreis][party]] is missing, a
    [KeyError]: in [erststimmen] when the row has at most [2 i] vote cells,
    in [zweitstimmen] when it has at most [2 i + 1]. *)
Theorem load_stimmen_short_row : forall py_int header r1 pre wk land cells post erst zweit i,
  load_stimmen py_int (header :: r1 :: (pre ++ (wk :: land :: cells) :: post)%list) = Ok (erst, zweit) ->
  Forall (fun row => ~ sets_constituency land wk row) post ->
  NoDup (party_names_of header) ->
  i < List.length (party_names_of header) ->
  (List.length cells <= 2 * i -> stimmen_get land wk (nth i (party_names_of header) EmptyString) erst = None) /\
  (List.length cells <= 2 * i + 1 -> stimmen_get land wk (nth i (party_names_of header) EmptyString) zweit = None).
Proof.
  intros py_int header r1 pre wk land cells post erst zweit i H Hpost Hnd Hi.
  unfold load_stimmen in H. cbn [skipn] in H. rewrite load_rows_app in H.
  destruct (load_rows py_int (party_names_of header) ([], []) pre) as [[e0 z0] |]; cbn [bind] in H; [| discriminate].
  cbn [load_rows] in H.
  destruct (load_row py_int (party_names_of header) (e0, z0) (wk :: land :: cells)) as [acc' |] eqn:Er;
    cbn [bind] in H; [| discriminate].
  destruct (load_row_ok _ _ _ _ _ _ Er) as [w [l [cs [vals [Hr [Hv Ha]]]]]].
  injection Hr as <- <- <-. subst acc'.
  destruct (load_rows_keep _ _ _ _ _ _ _ H Hpost) as [H1 H2]. simpl in H1, H2.
  rewrite constituency_of_setdefault, !String.eqb_refl in H1, H2. simpl in H1, H2.
  assert (Hlen : List.length vals = List.length cells) by (eapply mapM_length; exact Hv).
  unfold stimmen_get. rewrite H1, H2. split; intros Hc.
  - apply py_lookup_combine_short; [exact Hnd | | exact Hi]. apply length_every_other_le. lia.
  - apply py_lookup_combine_short; [exact Hnd | | exact Hi]. apply length_every_other_le.
    destruct vals; simpl in *; lia.
Qed.



Lemma load_stimmen_short_row_witness :
  load_stimmen decimal_int short_rows = Ok short_loaded /\
  (List.length ["7"; "8"; "9"] <= 2 * 1 -> stimmen_get "L1" "W2" "B" (fst short_loaded) = None) /\
  (List.length ["7"; "8"; "9"] <= 2 * 1 + 1 -> stimmen_get "L1" "W2" "B" (snd short_loaded) = None).
Proof.
  split; [vm_compute; reflexivity |].
  apply (load_stimmen_short_row decimal_int (nth 0 short_rows []) (nth 1 short_rows [])
           [nth 2 short_rows []] "W2" "L1" ["7"; "8"; "9"] [] (fst short_loaded) (snd short_loaded) 1).
  - vm_compute. reflexivity.
  - constructor.
  - vm_compute. repeat constructor; simpl; intuition discriminate.
  - vm_compute. lia.
Defined.

(** [[list(x) for x in zip( *rows)]] unpacked into four names (X5): it
    succeeds exactly when there is at least one row, every row has at least
    four cells and some row has exactly four; the four lists are then the
    first, second, third and fourth cells of every row, in row order. *)
Theorem sk_columns_spec : forall rows party_names coalition_flags votes seats,
  sk_columns rows = Ok (party_names, coalition_flags, votes, seats) <->
  rows <> [] /\
  Forall (fun row => 4 <= List.length row) rows /\
  Exists (fun row => List.length row = 4) rows /\
  party_names = map (fun row => nth 0 row EmptyString) rows /\
  coalition_flags = map (fun row => nth 1 row EmptyString) rows /\
  votes = map (fun row => nth 2 row EmptyString) rows /\
  seats = map (fun row => nth 3 row EmptyString) rows.
Proof.
  intros [| r rs] pn cf vs ss.
  - simpl. split; [discriminate | intros [H _]; congruence].
  - unfold sk_columns, zip_star.
    destruct (zip_width_spec rs (List.length r)) as [H1 [H2 H3]].
    set (w := fold_left (fun m row => Nat.min m (List.length row)) rs (List.length r)) in *.
    assert (Hm : forall l : list (list string),
               match l with [a; b; c; d] => Ok (a, b, c, d) | _ => Err InvalidInput end
               = Ok (pn, cf, vs, ss) <-> l = [pn; cf; vs; ss]).
    { intros [| a [| b [| c [| d [| e l]]]]]; split; intros H; try discriminate;
        injection H as -> -> -> ->; reflexivity. }
    rewrite Hm, map_seq_four. split.
    + intros [Hw [-> [-> [-> ->]]]]. split; [discriminate |].
      split; [constructor; [lia | refine (Forall_impl _ _ H2); intros row; lia] |].
      split; [| auto].
      destruct H3 as [H3 | H3]; [left; lia | right; refine (Exists_impl _ _ H3); intros row; lia].
    + intros [_ [Hall [Hex [-> [-> [-> ->]]]]]]. split; [| auto].
      inversion Hall as [| ? ? Hr Hrs]; subst.
      assert (Hge : 4 <= w).
      { destruct H3 as [H3 | H3]; [lia |].
        apply Exists_exists in H3 as [row [Hin Hlen]]. rewrite Forall_forall in Hrs.
        specialize (Hrs row Hin). lia. }
      assert (Hle : w <= 4).
      { inversion Hex as [? ? Hr4 | ? ? Hex']; subst; [lia |].
        apply Exists_exists in Hex' as [row [Hin Hlen]]. rewrite Forall_forall in H2.
        specialize (H2 row Hin). lia. }
      lia.
Qed.

(** [name.split('-')] in the construction of a coalition (X6): a party
    built from a non-zero coalition flag is a coalition named [name] whose
    members are the hyphen-separated parts of [name]: joined with hyphens
    they give back [name], there is one more member than hyphens, and no
    member contains a hyphen. With a zero flag the party is a political
    party of that name. *)
Theorem make_party_members : forall py_int name coalflag c,
  make_party py_int name coalflag = Ok c ->
  (py_int coalflag = Ok 0%Z /\ c = PoliticalParty name) \/
  (exists flag members,
     py_int coalflag = Ok flag /\ flag <> 0%Z /\
     c = Coalition name (map PoliticalParty members) /\
     String.concat "-" members = name /\
     List.length members = S (count_char "-" name) /\
     Forall (fun m => count_char "-" m = O) members).
Proof.
  intros py_int name coalflag c H. unfold make_party in H.
  destruct (py_int coalflag) as [flag |] eqn:E; simpl in H; [| discriminate].
  injection H as <-. destruct (Z.eqb flag 0) eqn:Ef.
  - left. apply Z.eqb_eq in Ef. subst. auto.
  - right. apply Z.eqb_neq in Ef. exists flag, (py_split "-" name).
    destruct (py_split_parts "-" name) as [Hc [Hl Hf]]. auto 7.
Qed.

(** The threshold a party built from a CSV row faces under the Slovak
    preselector (X7): with a zero coalition flag the five percent of a
    single party; with a non-zero flag the one of its member count, that
    is one more than the hyphens in its name: five percent without a
    hyphen, seven percent with one or two, ten percent with more. *)
Theorem make_party_threshold : forall py_int name coalflag c votes prev,
  make_party py_int name coalflag = Ok c ->
  exists flag, py_int coalflag = Ok flag /\
    admits sk_preselector votes prev c
    = admits (if Z.eqb flag 0 then standard_elim
              else match count_char "-" name with
                   | O => standard_elim
                   | 1 | 2 => mem_2_3_elim
                   | _ => mem_4plus_elim
                   end) votes prev c.
Proof.
  intros py_int name coalflag c votes prev H. unfold make_party in H.
  destruct (py_int coalflag) as [flag |] eqn:E; simpl in H; [| discriminate].
  injection H as <-. exists flag. split; [reflexivity |].
  unfold sk_preselector. rewrite admits_bracketer.
  destruct (Z.eqb flag 0); [reflexivity |].
  cbn [member_count]. rewrite length_map.
  destruct (py_split_parts "-" name) as [_ [Hl _]]. rewrite Hl.
  destruct (count_char "-" name) as [| [| [| n]]]; reflexivity.
Qed.

Lemma make_party_members_witness :
  make_party decimal_int "Progresívne Slovensko-SPOLU" "1" = Ok ps_spolu /\
  ((decimal_int "1" = Ok 0%Z /\ ps_spolu = PoliticalParty "Progresívne Slovensko-SPOLU") \/
   (exists flag members,
      decimal_int "1" = Ok flag /\ flag <> 0%Z /\
      ps_spolu = Coalition "Progresívne Slovensko-SPOLU" (map PoliticalParty members) /\
      String.concat "-" members = "Progresívne Slovensko-SPOLU" /\
      List.length members = S (count_char "-" "Progresívne Slovensko-SPOLU") /\
      Forall (fun m => count_char "-" m = O) members)).
Proof.
  split; [vm_compute; reflexivity |].
  apply (make_party_members decimal_int "Progresívne Slovensko-SPOLU" "1" ps_spolu).
  vm_compute. reflexivity.
Defined.

Lemma make_party_threshold_witness :
  make_party decimal_int "Progresívne Slovensko-SPOLU" "1" = Ok ps_spolu /\
  exists flag, decimal_int "1" = Ok flag /\
    admits sk_preselector sk_votes [] ps_spolu
    = admits (if Z.eqb flag 0 then standard_elim
              else match count_char "-" "Progresívne Slovensko-SPOLU" with
                   | O => standard_elim
                   | 1 | 2 => mem_2_3_elim
                   | _ => mem_4plus_elim
                   end) sk_votes [] ps_spolu.
Proof.
  split; [vm_compute; reflexivity |].
  apply (make_party_threshold decimal_int "Progresívne Slovensko-SPOLU" "1" ps_spolu sk_votes []).
  vm_compute. reflexivity.
Defined.

(** The nationwide total printed by the notebook (X8):
    [sum(MergedDistributions().convert(land_result).values())] is the sum
    over the states of the seats of each state. *)
Theorem merged_distributions_total : forall {K : Type} `{EqbKey K} (regions : list (string * mapping K)),
  total (merged_distributions regions) = N_sum (map (fun '(_, m) => total m) regions).
Proof. intros K HK regions. apply merged_total_sum. Qed.

(** The single plurality winner of a constituency (X9): [Plurality()] with
    one seat selects [w] exactly when [w] has the first entry of maximal
    votes (every earlier entry has fewer votes, no later one more); it
    selects nobody exactly when the constituency has no entries. *)
Theorem plurality_single_winner : forall {K : Type} `{EqbKey K} (votes : mapping K),
  (forall w, plurality votes 1 = [w] <->
     exists pre x post, votes = (pre ++ (w, x) :: post)%list /\
       Forall (fun e => (snd e < x)%N) pre /\ Forall (fun e => (snd e <= x)%N) post) /\
  (plurality votes 1 = [] <-> votes = []).
Proof.
  intros K HK votes. rewrite plurality_one. split.
  - intros w. split.
    + destruct (hd_error (sort_desc snd votes)) as [[w' x] |] eqn:E; intros Hw; [| discriminate].
      injection Hw as ->. apply sort_desc_head in E as [pre [post [E [Hpre Hpost]]]].
      exists pre, x, post. auto.
    + intros [pre [x [post Hd]]]. rewrite (proj2 (sort_desc_head votes w x)) by (exists pre, post; exact Hd).
      reflexivity.
  - destruct (hd_error (sort_desc snd votes)) as [[w' x] |] eqn:E.
    + split; [discriminate |]. intros ->. discriminate.
    + split; [intros _ | reflexivity].
      destruct (sort_desc snd votes) eqn:Es; [| discriminate].
      apply (proj1 (sort_desc_nil votes)), Es.
Qed.

(** The first round [round1_eval] (X10): it keeps the states in order, and
    in each state awards one seat per constituency with any votes, to its
    plurality winner, so a party's seats in a state are the number of
    constituencies it wins there. *)
Theorem round1_constituency_wins : forall erst : list (string * nested candidate),
  Forall2 (fun '(land, wks) '(land', won) =>
             land' = land /\
             total won = N.of_nat (List.length (filter (fun '(_, v) => match v with [] => false | _ => true end) wks)) /\
             forall c, get c won = N.of_nat (List.length (filter (fun '(_, v) => mem c (plurality v 1)) wks)))
          erst (round1 erst).
Proof.
  intros erst. unfold round1. induction erst as [| [land wks] erst IH]; constructor; [| exact IH].
  destruct (round1_state wks) as [Ht Hg]. auto.
Qed.

(** The state-level evaluator [land_prop_eval] (X11): on success every
    state is kept in order, receives exactly its fixed seat count from
    [land_seats], and only parties that pass the five percent threshold in
    that state get seats there. *)
Theorem land_prop_eval_states : forall accept_equal votes prev T res,
  evaluate_by_constituency (land_prop_eval accept_equal) votes prev T = Ok res ->
  Forall2 (fun '(r, v) '(r', s) =>
             r' = r /\ total s = get r land_seats /\
             forall c, In c (map fst s) ->
               exists x, In (c, x) v /\ admits (RelativeThreshold 5 100 accept_equal) v (region_get r prev) c = true)
          votes res.
Proof.
  intros ae votes prev T res H. unfold evaluate_by_constituency in H. cbn [land_prop_eval bc_apportioner region_seats bind] in H.
  apply mapM_ok in H. refine (Forall2_impl _ _ H). intros [r v] [r' s] Hf.
  cbn [land_prop_eval bc_preselector bc_evaluator] in Hf.
  destruct (lookup r land_seats) as [n |] eqn:El; cbn [bind] in Hf; [| discriminate].
  destruct (apportion prop_eval _ _) as [s' |] eqn:Ea; cbn [bind] in Hf; [| discriminate].
  injection Hf as <- <-. split; [reflexivity | split].
  - unfold get. rewrite El. apply (highest_averages_total _ _ _ _ Ea).
  - intros c Hc. pose proof (apportion_keys _ _ _ _ _ Ea Hc) as Hk.
    apply in_map_iff in Hk as [[c' x] [Heq Hin]]. simpl in Heq. subst c'.
    apply filter_In in Hin as [Hin Hm]. apply mem_in, select_in in Hm as [x' [Hin' Ha]].
    exists x. auto.
Qed.

(** When the state-level evaluator fails (X12): [land_prop_eval] succeeds
    exactly when every state is listed in [land_seats] and either has no
    seats there or has a party passing the five percent threshold; a state
    missing from [land_seats], or with seats and no such party, makes it fail
    with invalid input. *)
Theorem land_prop_eval_ok_iff : forall accept_equal votes prev T,
  ((exists res, evaluate_by_constituency (land_prop_eval accept_equal) votes prev T = Ok res) <->
   Forall (fun '(r, v) =>
             exists n, lookup r land_seats = Some n /\
               (n = 0%N \/
                exists c x, In (c, x) v /\
                  admits (RelativeThreshold 5 100 accept_equal) v (region_get r prev) c = true))
          votes) /\
  (forall err, evaluate_by_constituency (land_prop_eval accept_equal) votes prev T = Err err ->
     err = InvalidInput).
Proof.
  intros ae votes prev T. unfold evaluate_by_constituency.
  cbn [land_prop_eval bc_apportioner region_seats bind]. split; [split |].
  - intros Hall. apply mapM_ok_iff in Hall. refine (Forall_impl _ _ Hall). intros [r v] [y Hy].
    cbn [land_prop_eval bc_preselector bc_evaluator] in Hy.
    destruct (lookup r land_seats) as [n |]; cbn [bind] in Hy; [| discriminate].
    exists n. split; [reflexivity |]. unfold prop_eval, apportion, highest_averages in Hy.
    rewrite <- filter_mem_nonempty.
    destruct (filter _ v) as [| e rest]; [| right; discriminate].
    left. destruct (n =? 0)%N eqn:E; [apply N.eqb_eq, E | discriminate].
  - intros Hall. apply mapM_ok_iff. refine (Forall_impl _ _ Hall). intros [r v] [n [El Hc]].
    cbn [land_prop_eval bc_preselector bc_evaluator]. rewrite El. cbn [bind].
    unfold prop_eval, apportion, highest_averages.
    destruct (filter _ v) as [| [c x] rest] eqn:Ef.
    + destruct Hc as [-> | Hex]; [eexists; reflexivity |].
      apply filter_mem_nonempty in Hex. contradiction.
    + destruct (total _ =? 0)%N; eexists; reflexivity.
  - intros err H. apply mapM_err in H as [[r v] [_ H]].
    cbn [land_prop_eval bc_preselector bc_evaluator] in H.
    destruct (lookup r land_seats) as [n |]; cbn [bind] in H; [| congruence].
    apply bind_err in H as [H | [s [_ H]]]; [| discriminate].
    destruct (apportion_err _ _ _ _ H) as [E | E]; [exact E |].
    subst err. unfold prop_eval, apportion, highest_averages in H.
    destruct (filter _ v) as [| [c x] rest]; [destruct (n =? 0)%N | destruct (total _ =? 0)%N];
      discriminate.
Qed.

Lemma land_prop_eval_states_witness :
  evaluate_by_constituency (land_prop_eval true)
    [("Bremen", [(PoliticalParty "A", 100); (PoliticalParty "B", 3)])%N] [] 0%N
  = Ok [("Bremen", [(PoliticalParty "A", 5)])%N] /\
  Forall2 (fun '(r, v) '(r', s) =>
             r' = r /\ total s = get r land_seats /\
             forall c, In c (map fst s) ->
               exists x, In (c, x) v /\ admits (RelativeThreshold 5 100 true) v (region_get r []) c = true)
          [("Bremen", [(PoliticalParty "A", 100); (PoliticalParty "B", 3)])%N]
          [("Bremen", [(PoliticalParty "A", 5)])%N].
Proof.
  split; [vm_compute; reflexivity |].
  apply (land_prop_eval_states true _ [] 0%N). vm_compute. reflexivity.
Defined.

(** The national evaluator [nat_eval] (X14): on success it awards exactly
    the requested seats, and only to parties with votes that either pass
    the five percent threshold nationally or won at least three seats in
    the first round. *)
Theorem nat_eval_seats : forall accept_equal votes prev T s,
  evaluate (nat_eval accept_equal) votes prev T = Ok s ->
  total s = T /\
  forall c, In c (map fst s) ->
    exists x, In (c, x) votes /\
      (admits (RelativeThreshold 5 100 accept_equal) votes prev c = true \/ (3 <= get c prev)%N).
Proof.
  intros ae votes prev T s H. cbn [nat_eval evaluate] in H. split.
  - apply (highest_averages_total _ _ _ _ H).
  - intros c Hc. pose proof (apportion_keys _ _ _ _ _ H Hc) as Hk.
    apply in_map_iff in Hk as [[c' x] [Heq Hin]]. simpl in Heq. subst c'.
    apply filter_In in Hin as [Hin Hm]. apply mem_in, select_in in Hm as [x' [_ Ha]].
    exists x. split; [exact Hin |].
    cbn [nat_threshold admits] in Ha. rewrite orb_false_r in Ha. apply orb_true_iff in Ha as [Ha | Ha].
    + left. exact Ha.
    + right. apply N.leb_le, Ha.
Qed.

(** When the national evaluator fails (X15): [nat_eval] succeeds exactly
    when no seats are requested or some party with votes is admitted by
    the five percent or the three-seat rule. *)
Theorem nat_eval_ok_iff : forall accept_equal votes prev T,
  (exists s, evaluate (nat_eval accept_equal) votes prev T = Ok s) <->
  T = 0%N \/ exists c x, In (c, x) votes /\ admits (nat_threshold accept_equal) votes prev c = true.
Proof.
  intros ae votes prev T. cbn [nat_eval evaluate]. unfold prop_eval, apportion, highest_averages.
  rewrite <- filter_mem_nonempty.
  destruct (filter _ votes) as [| e rest].
  - split.
    + intros [s Hs]. left. destruct (T =? 0)%N eqn:E; [apply N.eqb_eq, E | discriminate].
    + intros [-> | Hne]; [eexists; reflexivity | contradiction].
  - split; [intros _; right; discriminate |].
    intros _. destruct e as [c x]. destruct (total _ =? 0)%N; eexists; reflexivity.
Qed.

Lemma nat_eval_seats_witness :
  evaluate (nat_eval true)
    [(PoliticalParty "A", 100); (PoliticalParty "B", 2); (PoliticalParty "C", 3)]%N
    [(PoliticalParty "C", 3)]%N 20%N
  = Ok [(PoliticalParty "A", 19); (PoliticalParty "C", 1)]%N /\
  (total [(PoliticalParty "A", 19); (PoliticalParty "C", 1)]%N = 20%N /\
   forall c, In c (map fst [(PoliticalParty "A", 19); (PoliticalParty "C", 1)]%N) ->
     exists x, In (c, x) [(PoliticalParty "A", 100); (PoliticalParty "B", 2); (PoliticalParty "C", 3)]%N /\
       (admits (RelativeThreshold 5 100 true)
          [(PoliticalParty "A", 100); (PoliticalParty "B", 2); (PoliticalParty "C", 3)]%N
          [(PoliticalParty "C", 3)]%N c = true \/ (3 <= get c [(PoliticalParty "C", 3)]%N)%N)).
Proof.
  split; [vm_compute; reflexivity |].
  apply (nat_eval_seats true _ _ 20%N). vm_compute. reflexivity.
Defined.
